(** * connectionParseService: group lookups, group transformer, batch parsing

    A shallow embedding of
    [guacamole/src/main/frontend/src/app/import/services/connectionParseService.js]
    and the properties of its import pre-processing. *)

From Stdlib Require Import String Ascii List Arith Lia Sorted.
From stdpp Require Import base option list gmap strings fin_maps.

Local Open Scope string_scope.
Local Open Scope list_scope.

(** ** Strings

    The three [String.prototype] methods the service calls. *)

(** [s.startsWith(t)] *)
Definition startsWith (s t : string) : bool := String.prefix t s.

(** [s.endsWith(t)]: the last [length t] characters of [s] are [t]. *)
Definition endsWith (s t : string) : bool :=
  (String.length t <=? String.length s)%nat &&
  String.eqb (String.substring (String.length s - String.length t)
                               (String.length t) s) t.

(** [s.slice(0, -1)]: [s] without its last character. *)
Definition slice_0_m1 (s : string) : string :=
  String.substring 0 (String.length s - 1) s.

(** ** The connection group tree

    The tree [connectionGroupService.getConnectionGroupTree] resolves to.
    Only the three properties [saveLookups] reads are kept. *)

#[warnings="-register-all"]
Inductive ConnectionGroup : Type := mkConnectionGroup {
  identifier : string;
  name : string;
  childConnectionGroups : list ConnectionGroup
}.

(** The two objects [getGroupLookups] fills and resolves with.
    [groupLookups] and [identifierSet] are object literals used as maps
    keyed by strings; the record holds their own properties, a [gmap] and a
    [gset]. What a read of [identifierSet] finds besides is in
    [identifierSetHas], below. *)
Record Lookups := mkLookups {
  groupLookups : gmap string string;
  identifierSet : gset string
}.

Definition emptyLookups : Lookups :=
  {| groupLookups := ∅; identifierSet := ∅ |}.

(** The two assignments [saveLookups] makes for the group it is called on:
    [groupLookups[currentPath] = group.identifier] and
    [identifierSet[group.identifier] = true]. *)
Definition record_group (st : Lookups) (currentPath : string)
    (group : ConnectionGroup) : Lookups :=
  {| groupLookups := <[currentPath := identifier group]> (groupLookups st);
     identifierSet := {[identifier group]} ∪ identifierSet st |}.

(** [saveLookups(prefix, group)], with the two captured objects threaded
    through as state. *)
Fixpoint saveLookups (prefix : string) (group : ConnectionGroup)
    (st : Lookups) : Lookups :=
  let currentPath := prefix +:+ name group in
  let st1 := record_group st currentPath group in
  let nextPrefix := currentPath +:+ "/" in
  fold_left (fun st' childGroup => saveLookups nextPrefix childGroup st')
            (childConnectionGroups group) st1.

(** The value [getGroupLookups] resolves with once the tree [rootGroup] has
    been fetched. *)
Definition getGroupLookups (rootGroup : ConnectionGroup) : Lookups :=
  saveLookups "" rootGroup emptyLookups.

(** *** The nodes of a tree and their canonical paths

    The root's path is its bare name; a child's path is its parent's path,
    a slash, and the child's name. [nodesFrom path g] lists every node of
    the tree rooted at [g], each with its canonical path, given that [g]
    itself has path [path]. *)
Fixpoint nodesFrom (path : string) (g : ConnectionGroup)
    : list (string * ConnectionGroup) :=
  (path, g) ::
  flat_map (fun child => nodesFrom (path +:+ "/" +:+ name child) child)
           (childConnectionGroups g).

Definition nodes (rootGroup : ConnectionGroup) : list (string * ConnectionGroup) :=
  nodesFrom (name rootGroup) rootGroup.

(** The number of nodes of a tree. *)
Fixpoint tree_size (g : ConnectionGroup) : nat :=
  S (list_sum (map tree_size (childConnectionGroups g))).

(** One visit of the traversal. *)
Definition visit (st : Lookups) (n : string * ConnectionGroup) : Lookups :=
  record_group st (fst n) (snd n).

(** An induction principle that reaches the children of a node. *)
Section ConnectionGroup_ind.
Variable P : ConnectionGroup -> Prop.
Hypothesis Hnode : forall i n cs, Forall P cs -> P (mkConnectionGroup i n cs).

Fixpoint ConnectionGroup_tree_ind (g : ConnectionGroup) : P g :=
  match g with
  | mkConnectionGroup i n cs =>
      Hnode i n cs
        ((fix children_ind (l : list ConnectionGroup) : Forall P l :=
            match l with
            | [] => List.Forall_nil P
            | c :: l' => @List.Forall_cons _ P c l' (ConnectionGroup_tree_ind c) (children_ind l')
            end) cs)
  end.
End ConnectionGroup_ind.

(** ** Import records

    The object a connection entry evaluates to once the transform functions
    have run ([ImportConnection]). The four properties the service reads are
    kept as fields: an absent property is [None]; every other property of
    the object is carried along in [others]. The fields have the types of
    the import format: [group] and [parentIdentifier] are strings, [users]
    and [groups] arrays of strings. An entry of another shape ([null], a
    group that is no string, users that are no array) is outside this
    type. *)
Module ImportConnection.
Record t := mk {
  group : option string;
  parentIdentifier : option string;
  users : option (list string);
  groups : option (list string);
  others : list (string * string)
}.

(** The empty object. *)
Definition empty : t := mk None None None None [].
End ImportConnection.

(** The truthiness test of [if (v)] and [!v] on a property that is absent or
    a string: [Some s] with the string when [v] is truthy, [None] when [v]
    is [undefined] or the empty string. *)
Definition truthy (v : option string) : option string :=
  match v with
  | Some s => if String.eqb s "" then None else Some s
  | None => None
  end.

(** ** Errors

    Modelled from the spec: the [ParseError] type, whose declaration is not
    part of this file (a message, an optional translation key, optional
    substitution variables). *)
Record ParseError := mkParseError {
  message : string;
  key : option string;
  variables : list (string * string)
}.

(** A thrown value: a [ParseError], or anything else. *)
Inductive Thrown : Type :=
| ThrownParseError (error : ParseError)
| ThrownOther (description : string).

(** The outcome of a call: it returns or it throws. *)
Inductive Completion (A : Type) : Type :=
| Return (a : A)
| Throw (error : Thrown).
Arguments Return {A} a.
Arguments Throw {A} error.

(** A settled promise. *)
Inductive Promise (A : Type) : Type :=
| Resolved (a : A)
| Rejected (reason : Thrown).
Arguments Resolved {A} a.
Arguments Rejected {A} reason.

(** ** The group transformer *)

Definition ROOT_GROUP_IDENTIFIER : string := "ROOT".

(** Lines 200-213: the group path of the connection made absolute from the
    root group, without a trailing slash. *)
Definition absoluteGroupPath (original : string) : string :=
  let group :=
    if startsWith original "/" then ROOT_GROUP_IDENTIFIER +:+ original
    else if negb (startsWith original ROOT_GROUP_IDENTIFIER)
         then ROOT_GROUP_IDENTIFIER +:+ "/" +:+ original
         else original in
  if endsWith group "/" then slice_0_m1 group else group.

Definition invalidGroupIdentifier (parentIdentifier : string) : ParseError :=
  {| message := "No group with identifier: " +:+ parentIdentifier;
     key := Some "IMPORT.ERROR_INVALID_GROUP_IDENTIFIER";
     variables := [("IDENTIFIER", parentIdentifier)] |}.

Definition ambiguousParentGroup : ParseError :=
  {| message := "Only one of group or parentIdentifier can be set";
     key := Some "IMPORT.ERROR_AMBIGUOUS_PARENT_GROUP";
     variables := [] |}.

Definition invalidGroup (group : string) : ParseError :=
  {| message := "No group found named: " +:+ group;
     key := Some "IMPORT.ERROR_INVALID_GROUP";
     variables := [("GROUP", group)] |}.

(** [{...connection, parentIdentifier: identifier}] *)
Definition withParentIdentifier (connection : ImportConnection.t)
    (identifier : string) : ImportConnection.t :=
  {| ImportConnection.group := ImportConnection.group connection;
     ImportConnection.parentIdentifier := Some identifier;
     ImportConnection.users := ImportConnection.users connection;
     ImportConnection.groups := ImportConnection.groups connection;
     ImportConnection.others := ImportConnection.others connection |}.

(** The names of the properties an object literal inherits from
    [Object.prototype]. The value of each is a function or an object, so a
    read of one of them is truthy. *)
Definition objectPrototypeNames : list string :=
  [ "constructor"; "hasOwnProperty"; "isPrototypeOf"; "propertyIsEnumerable";
    "toLocaleString"; "toString"; "valueOf"; "__proto__";
    "__defineGetter__"; "__defineSetter__"; "__lookupGetter__"; "__lookupSetter__" ].

(** Line 179: [identifierSet[parentIdentifier]], read for its truthiness.
    [identifierSet] is an object literal: the read finds the value [true]
    of an own property, or the value of a property inherited from
    [Object.prototype]. *)
Definition identifierSetHas (lk : Lookups) (parentIdentifier : string) : bool :=
  bool_decide (parentIdentifier ∈ identifierSet lk)
  || bool_decide (parentIdentifier ∈ objectPrototypeNames).

(** The function [getGroupTransformer] resolves to, for the lookups [lk].
    Every [if (v)] of the source is a [match truthy v]. The read
    [groupLookups[group]] of line 216 is a lookup among the own properties:
    the key begins with the identifier of the root group, and no inherited
    name does. *)
Definition groupTransformer (lk : Lookups) (connection : ImportConnection.t)
    : Completion ImportConnection.t :=
  let parentIdentifier := ImportConnection.parentIdentifier connection in
  match truthy (ImportConnection.group connection) with
  | None =>
      (* no group path defined for this connection *)
      match truthy parentIdentifier with
      | None => Return connection
      | Some p =>
          if identifierSetHas lk p then Return connection
          else Throw (ThrownParseError (invalidGroupIdentifier p))
      end
  | Some original =>
      match truthy parentIdentifier with
      | Some _ => Throw (ThrownParseError ambiguousParentGroup)
      | None =>
          let group := absoluteGroupPath original in
          match truthy (groupLookups lk !! group) with
          | None => Throw (ThrownParseError (invalidGroup original))
          | Some identifier => Return (withParentIdentifier connection identifier)
          end
      end
  end.

(** ** Parsed data and basic checks *)

(** A parsed value that is not an instance of [Array]. *)
Inductive NonArray : Type :=
| JUndefined
| JNull
| JBoolean (b : bool)
| JNumber (n : Z)
| JString (s : string)
| JObject (o : ImportConnection.t).

(** What the CSV, YAML or JSON parser hands to [parseConnectionData]. *)
Inductive ParsedData : Type :=
| NotArray (v : NonArray)
| IsArray (entries : list ImportConnection.t).

Definition arrayRequired : ParseError :=
  {| message := "Import data must be a list of connections";
     key := Some "IMPORT.ERROR_ARRAY_REQUIRED";
     variables := [] |}.

Definition emptyFile : ParseError :=
  {| message := "The provided file is empty";
     key := Some "IMPORT.ERROR_EMPTY_FILE";
     variables := [] |}.

(** [performBasicChecks(parsedData)]: the error, or [None] for [undefined]. *)
Definition performBasicChecks (parsedData : ParsedData) : option ParseError :=
  match parsedData with
  | NotArray _ => Some arrayRequired
  | IsArray entries =>
      if (length entries =? 0)%nat then Some emptyFile else None
  end.

(** ** Parse results *)

(** Modelled from the spec: the [DirectoryPatch] type, whose declaration is
    not part of this file; the constructor keeps the three properties of
    its template. *)
Record DirectoryPatch (Connection : Type) := mkDirectoryPatch {
  op : string;
  path : string;
  value : Connection
}.
Arguments mkDirectoryPatch {Connection} op path value.
Arguments op {Connection} _.
Arguments path {Connection} _.
Arguments value {Connection} _.

(** Modelled from the spec: the [ParseResult] type, whose declaration is
    not part of this file: the patches, the two maps from an identifier to
    the indices of the connections granted to it, the errors of each
    connection, and the error flag. *)
Module ParseResult.
Record t (Connection : Type) := mk {
  patches : list (DirectoryPatch Connection);
  users : gmap string (list nat);
  groups : gmap string (list nat);
  errors : list (list Thrown);
  hasErrors : bool
}.
Arguments mk {Connection} patches users groups errors hasErrors.
Arguments patches {Connection} _.
Arguments users {Connection} _.
Arguments groups {Connection} _.
Arguments errors {Connection} _.
Arguments hasErrors {Connection} _.

(** Modelled from the spec: [new ParseResult()], created empty. *)
Definition new {Connection : Type} : t Connection := mk [] ∅ ∅ [] false.
End ParseResult.

(** ** parseConnectionData *)

(** A transform function; it may throw. *)
Definition Transform : Type := ImportConnection.t -> Completion ImportConnection.t.

(** A transform function that returns on every entry. *)
Definition returning (f : ImportConnection.t -> ImportConnection.t) : Transform :=
  fun connectionObject => Return (f connectionObject).

(** Lines 269-272: [_.forEach(transformFunctions, transform => ...)]. A
    transform that throws ends the loop and the callback around it. When
    the caller gives no transform functions, [_.forEach] does nothing: the
    list is empty. *)
Fixpoint applyTransforms (transformFunctions : list Transform)
    (connectionObject : ImportConnection.t) : Completion ImportConnection.t :=
  match transformFunctions with
  | [] => Return connectionObject
  | transform :: rest =>
      match transform connectionObject with
      | Return connectionObject' => applyTransforms rest connectionObject'
      | Throw error => Throw error
      end
  end.

(** Lines 275-286: the [try]/[catch] around the group transformer. The
    result is the connection object after the block and the errors of this
    connection. *)
Definition tryGroupTransformer (lk : Lookups) (connectionObject : ImportConnection.t)
    : ImportConnection.t * list Thrown :=
  match groupTransformer lk connectionObject with
  | Return connectionObject' => (connectionObject', [])
  | Throw error => (connectionObject, [error])
  end.

(** Lines 296-301 (and 308-313): the index is pushed to the list of the
    identifier, or starts a new list. *)
Definition addIndex (index : nat) (grants : gmap string (list nat))
    (identifier : string) : gmap string (list nat) :=
  match grants !! identifier with
  | Some indices => <[identifier := indices ++ [index]]> grants
  | None => <[identifier := [index]]> grants
  end.

(** [identifiers.forEach(identifier => ...)] over one of the two maps. *)
Definition addIndexForEach (index : nat) (identifiers : list string)
    (grants : gmap string (list nat)) : gmap string (list nat) :=
  fold_left (addIndex index) identifiers grants.

Section ParseConnectionData.
Context {Connection : Type}.

(** [new Connection(connectionObject)]; the constructor is not part of
    this file. *)
Variable newConnection : ImportConnection.t -> Connection.

Variable lk : Lookups.
Variable transformFunctions : list Transform.

(** Lines 317-324: the patch that creates the connection. *)
Definition addPatch (connectionObject : ImportConnection.t)
    : DirectoryPatch Connection :=
  {| op := "add"; path := "/"; value := newConnection connectionObject |}.

(** Lines 274-330: the callback from the [try] on, for the connection
    object the transform functions produced. The array
    [connectionErrors] is pushed to [parseResult.errors] when still
    empty and filled afterwards; nothing reads it in between, so the
    model appends its final content. *)
Definition afterTransforms (parseResult : ParseResult.t Connection)
    (transformed : ImportConnection.t) (index : nat)
    : ParseResult.t Connection :=
  let '(connectionObject, connectionErrors) :=
    tryGroupTransformer lk transformed in
  let connectionUsers := default [] (ImportConnection.users connectionObject) in
  let connectionGroups := default [] (ImportConnection.groups connectionObject) in
  {| ParseResult.patches :=
       ParseResult.patches parseResult ++ [addPatch connectionObject];
     ParseResult.users :=
       addIndexForEach index connectionUsers (ParseResult.users parseResult);
     ParseResult.groups :=
       addIndexForEach index connectionGroups (ParseResult.groups parseResult);
     ParseResult.errors :=
       ParseResult.errors parseResult ++ [connectionErrors];
     ParseResult.hasErrors :=
       if (length connectionErrors =? 0)%nat
       then ParseResult.hasErrors parseResult else true |}.

(** The callback given to [connectionData.reduce]: lines 269-272, in
    which a transform function may throw, then the rest. *)
Definition reducer (parseResult : ParseResult.t Connection)
    (data : ImportConnection.t) (index : nat)
    : Completion (ParseResult.t Connection) :=
  match applyTransforms transformFunctions data with
  | Throw error => Throw error
  | Return transformed => Return (afterTransforms parseResult transformed index)
  end.

(** [connectionData.reduce(callback, initial)], from index [index] on. *)
Fixpoint reduce (connectionData : list ImportConnection.t) (index : nat)
    (parseResult : ParseResult.t Connection)
    : Completion (ParseResult.t Connection) :=
  match connectionData with
  | [] => Return parseResult
  | data :: rest =>
      match reducer parseResult data index with
      | Return parseResult' => reduce rest (S index) parseResult'
      | Throw error => Throw error
      end
  end.
End ParseConnectionData.

(** [parseConnectionData(connectionData, transformFunctions)], once the
    connection group tree [rootGroup] has been fetched. A value thrown in
    the callback of [then] rejects the promise. *)
Definition parseConnectionData {Connection : Type}
    (newConnection : ImportConnection.t -> Connection)
    (rootGroup : ConnectionGroup)
    (connectionData : ParsedData) (transformFunctions : list Transform)
    : Promise (ParseResult.t Connection) :=
  match performBasicChecks connectionData with
  | Some checkError => Rejected (ThrownParseError checkError)
  | None =>
      match connectionData with
      | NotArray _ =>
          Rejected (ThrownOther "TypeError: connectionData.reduce is not a function")
      | IsArray entries =>
          match reduce newConnection (getGroupLookups rootGroup)
                       transformFunctions entries 0 ParseResult.new with
          | Return parseResult => Resolved parseResult
          | Throw error => Rejected error
          end
      end
  end.

(** ** Notions used to state the properties of a batch *)

(** The connection object a list of returning transform functions makes of
    an entry. *)
Definition transformed (fs : list (ImportConnection.t -> ImportConnection.t))
    (data : ImportConnection.t) : ImportConnection.t :=
  fold_left (fun connectionObject f => f connectionObject) fs data.

(** The users, and the user groups, a connection object grants access to. *)
Definition usersOf (connectionObject : ImportConnection.t) : list string :=
  default [] (ImportConnection.users connectionObject).

Definition groupsOf (connectionObject : ImportConnection.t) : list string :=
  default [] (ImportConnection.groups connectionObject).

(** The grants of a run of connections, the first of which has index
    [index]. *)
Fixpoint grantsFrom (index : nat) (identifiers : list (list string))
    (grants : gmap string (list nat)) : gmap string (list nat) :=
  match identifiers with
  | [] => grants
  | ids :: rest => grantsFrom (S index) rest (addIndexForEach index ids grants)
  end.

(** The indices a run of connections adds for the identifier [id]: each
    index once for every occurrence of [id] in the list of that
    connection. *)
Fixpoint indicesOf (id : string) (index : nat) (identifiers : list (list string))
    : list nat :=
  match identifiers with
  | [] => []
  | ids :: rest =>
      replicate (count_occ string_dec ids id) index ++ indicesOf id (S index) rest
  end.

(** ** Sample data *)

(** A tree: ROOT, with children sub (which has a child deep) and East. *)
Definition sampleTree : ConnectionGroup :=
  mkConnectionGroup "ROOT" "ROOT"
    [ mkConnectionGroup "g-sub" "sub" [ mkConnectionGroup "g-42" "deep" [] ];
      mkConnectionGroup "g-east" "East" [] ].

Definition sampleLookups : Lookups := getGroupLookups sampleTree.

(** [{group: g}] *)
Definition withGroup (g : string) : ImportConnection.t :=
  ImportConnection.mk (Some g) None None None [].

(** [{group: g, parentIdentifier: p}] *)
Definition withBoth (g p : string) : ImportConnection.t :=
  ImportConnection.mk (Some g) (Some p) None None [].

(** [{users: us}] *)
Definition withUsers (us : list string) : ImportConnection.t :=
  ImportConnection.mk None None (Some us) None [].

(** A transform function that throws on an entry without a [name]
    property and returns every other entry as it is. *)
Definition requireName : Transform :=
  fun connectionObject =>
    match List.find (fun kv => String.eqb (fst kv) "name")
                    (ImportConnection.others connectionObject) with
    | Some _ => Return connectionObject
    | None => Throw (ThrownOther "Error: name is required")
    end.

(** [{name: n}] *)
Definition named (n : string) : ImportConnection.t :=
  ImportConnection.mk None None None None [("name", n)].

(** [{...connection, group: g}], used to state properties of one
    connection under several spellings of its group. *)
Definition withGroupOf (connection : ImportConnection.t) (g : string)
    : ImportConnection.t :=
  {| ImportConnection.group := Some g;
     ImportConnection.parentIdentifier := ImportConnection.parentIdentifier connection;
     ImportConnection.users := ImportConnection.users connection;
     ImportConnection.groups := ImportConnection.groups connection;
     ImportConnection.others := ImportConnection.others connection |}.

(** [{group: "Missing/Path", users: ["alice", "bob"], groups: ["admins"]}],
    a connection whose group is no path of [sampleTree]. *)
Definition unresolvedWithGrants : ImportConnection.t :=
  ImportConnection.mk (Some "Missing/Path") None
                      (Some ["alice"; "bob"]) (Some ["admins"]) [].

(** A tree whose only group has the empty string as identifier. *)
Definition anonymousRoot : ConnectionGroup := mkConnectionGroup "" "ROOT" [].

(** ** Entries that are not yet connection objects

    [parseCSV] hands [parseConnectionData] the rows of the file and one
    transform function, which makes a connection object of a row. The
    definitions below are [parseConnectionData] for such entries, of any
    type [Raw], with that transform function as the only one. *)
Section ParseRows.
Context {Raw Connection : Type}.
Variable newConnection : ImportConnection.t -> Connection.
Variable lk : Lookups.
Variable rowTransformer : Raw -> Completion ImportConnection.t.

(** The callback given to [connectionData.reduce], for the transform
    functions [[rowTransformer]]. *)
Definition reducerRows (parseResult : ParseResult.t Connection)
    (data : Raw) (index : nat) : Completion (ParseResult.t Connection) :=
  match rowTransformer data with
  | Throw error => Throw error
  | Return transformed =>
      Return (afterTransforms newConnection lk parseResult transformed index)
  end.

(** [connectionData.reduce(callback, initial)], from index [index] on. *)
Fixpoint reduceRows (connectionData : list Raw) (index : nat)
    (parseResult : ParseResult.t Connection)
    : Completion (ParseResult.t Connection) :=
  match connectionData with
  | [] => Return parseResult
  | data :: rest =>
      match reducerRows parseResult data index with
      | Return parseResult' => reduceRows rest (S index) parseResult'
      | Throw error => Throw error
      end
  end.
End ParseRows.

(** [parseConnectionData(connectionData, [rowTransformer])] for an array
    [connectionData]: of the basic checks, the one on the length is left. *)
Definition parseConnectionDataRows {Raw Connection : Type}
    (newConnection : ImportConnection.t -> Connection)
    (rootGroup : ConnectionGroup)
    (connectionData : list Raw)
    (rowTransformer : Raw -> Completion ImportConnection.t)
    : Promise (ParseResult.t Connection) :=
  if (length connectionData =? 0)%nat
  then Rejected (ThrownParseError emptyFile)
  else
    match reduceRows newConnection (getGroupLookups rootGroup)
                     rowTransformer connectionData 0 ParseResult.new with
    | Return parseResult => Resolved parseResult
    | Throw error => Rejected error
    end.

(** ** The three entry points *)

(** What a call of one of the parsers ([csv-parse], [yaml], [JSON.parse])
    comes to: the parsed value, or a thrown error, of which the service
    reads the message. *)
Inductive ParserOutcome (A : Type) : Type :=
| Parsed (a : A)
| ParserThrows (error_message : string).
Arguments Parsed {A} a.
Arguments ParserThrows {A} error_message.

(** [new ParseError({ message: error.message })] *)
Definition messageOnly (error_message : string) : ParseError :=
  {| message := error_message; key := None; variables := [] |}.

(** [service.parseCSV(csvData)]. The parser and
    [connectionCSVService.getCSVTransformer] are not part of this file;
    the promise the latter returns is taken as settled. *)
Definition parseCSV {Connection : Type}
    (newConnection : ImportConnection.t -> Connection)
    (rootGroup : ConnectionGroup)
    (parseCSVData : string -> ParserOutcome (list (list string)))
    (getCSVTransformer :
       list string -> Promise (list string -> Completion ImportConnection.t))
    (csvData : string) : Promise (ParseResult.t Connection) :=
  match parseCSVData csvData with
  | ParserThrows error_message =>
      Rejected (ThrownParseError (messageOnly error_message))
  | Parsed parsedData =>
      let header := match parsedData with [] => [] | row :: _ => row end in
      let connectionData := tail parsedData in
      match getCSVTransformer header with
      | Rejected reason => Rejected reason
      | Resolved csvTransformer =>
          parseConnectionDataRows newConnection rootGroup connectionData csvTransformer
      end
  end.

(** [service.parseYAML(yamlData)]; no transform functions are given. *)
Definition parseYAML {Connection : Type}
    (newConnection : ImportConnection.t -> Connection)
    (rootGroup : ConnectionGroup)
    (parseYAMLData : string -> ParserOutcome ParsedData)
    (yamlData : string) : Promise (ParseResult.t Connection) :=
  match parseYAMLData yamlData with
  | ParserThrows error_message =>
      Rejected (ThrownParseError (messageOnly error_message))
  | Parsed connectionData =>
      parseConnectionData newConnection rootGroup connectionData []
  end.

(** [service.parseJSON(jsonData)]; no transform functions are given. *)
Definition parseJSON {Connection : Type}
    (newConnection : ImportConnection.t -> Connection)
    (rootGroup : ConnectionGroup)
    (JSON_parse : string -> ParserOutcome ParsedData)
    (jsonData : string) : Promise (ParseResult.t Connection) :=
  match JSON_parse jsonData with
  | ParserThrows error_message =>
      Rejected (ThrownParseError (messageOnly error_message))
  | Parsed connectionData =>
      parseConnectionData newConnection rootGroup connectionData []
  end.

(** ** Notions used to state what a grant map holds *)

(** Every list of the grant map [grants] is non-empty and in ascending
    order, and every index in the list of an identifier is the index of a
    connection that names the identifier; [identifiers] holds, by index,
    the identifiers each connection names. *)
Definition grantsWithin (identifiers : list (list string))
    (grants : gmap string (list nat)) : Prop :=
  forall id l, grants !! id = Some l ->
    l <> [] /\
    Sorted.StronglySorted le l /\
    forall i, In i l -> exists ids, identifiers !! i = Some ids /\ In id ids.

(** ** More sample data *)

(** A tree in which two children of the root have the same name. *)
Definition twinTree : ConnectionGroup :=
  mkConnectionGroup "ROOT" "ROOT"
    [ mkConnectionGroup "g-1" "twin" [];
      mkConnectionGroup "g-2" "twin" [] ].

(** A parser of a fixed two-line file: a header and one row. *)
Definition sampleCSVParser (csvData : string) : ParserOutcome (list (list string)) :=
  if String.eqb csvData "" then ParserThrows "Invalid Record Length"
  else Parsed [["name"; "group"]; [csvData; "ROOT/East"]].

(** A transform function for rows of the two columns name and group. *)
Definition sampleCSVTransformer (row : list string) : Completion ImportConnection.t :=
  match row with
  | [n; g] => Return (ImportConnection.mk (Some g) None None None [("name", n)])
  | _ => Throw (ThrownOther "Error: two columns expected")
  end.

(** * Properties *)

Lemma string_app_assoc (a b c : string) : (a +:+ b) +:+ c = a +:+ (b +:+ c).
Proof.
  induction a as [|x a IH]; [reflexivity|].
  change (String x ((a +:+ b) +:+ c) = String x (a +:+ (b +:+ c))).
  f_equal; exact IH.
Qed.

Lemma fold_left_flat_map {A B C} (f : A -> C -> A) (h : B -> list C) l a :
  fold_left f (flat_map h l) a = fold_left (fun a' b => fold_left f (h b) a') l a.
Proof.
  revert a. induction l as [|b l IH]; intros a; simpl; [reflexivity|].
  now rewrite fold_left_app, IH.
Qed.

Lemma fold_left_ext_Forall {A B} (f g : A -> B -> A) l a :
  Forall (fun b => forall a', f a' b = g a' b) l ->
  fold_left f l a = fold_left g l a.
Proof.
  intros H. revert a. induction H as [|b l Hb _ IH]; intros a; simpl; [reflexivity|].
  now rewrite Hb, IH.
Qed.

(** The traversal is a left-to-right pass of [visit] over the nodes. *)
Lemma saveLookups_nodesFrom g : forall prefix st,
  saveLookups prefix g st = fold_left visit (nodesFrom (prefix +:+ name g) g) st.
Proof.
  induction g as [i n cs IH] using ConnectionGroup_tree_ind.
  intros prefix st. simpl.
  rewrite fold_left_flat_map. unfold visit at 2. simpl.
  apply fold_left_ext_Forall.
  eapply List.Forall_impl; [|exact IH]. simpl.
  intros c Hc a'. rewrite Hc. now rewrite !string_app_assoc.
Qed.

(** ** The group lookups *)

Lemma visit_groupLookups_other l : forall st q,
  q ∉ map fst l ->
  groupLookups (fold_left visit l st) !! q = groupLookups st !! q.
Proof.
  induction l as [|[p g] l IH]; intros st q Hq; simpl in *; [reflexivity|].
  apply not_elem_of_cons in Hq as [Hne Hq].
  rewrite IH by exact Hq. apply lookup_insert_ne.
  intros E. apply Hne. symmetry. exact E.
Qed.

Lemma visit_groupLookups l : forall st q n,
  NoDup (map fst l) -> (q, n) ∈ l ->
  groupLookups (fold_left visit l st) !! q = Some (identifier n).
Proof.
  induction l as [|[p g] l IH]; intros st q n Hnd Hin; simpl in *.
  - now apply elem_of_nil in Hin.
  - apply NoDup_cons in Hnd as [Hp Hnd].
    apply elem_of_cons in Hin as [Heq | Hin].
    + inversion Heq; subst. rewrite visit_groupLookups_other by exact Hp.
      apply lookup_insert_eq.
    + now apply IH.
Qed.

Lemma visit_identifierSet_mono l : forall st i,
  i ∈ identifierSet st -> i ∈ identifierSet (fold_left visit l st).
Proof.
  induction l as [|[p g] l IH]; intros st i Hi; simpl; [exact Hi|].
  apply IH. simpl. set_solver.
Qed.

Lemma visit_identifierSet l : forall st q n,
  (q, n) ∈ l -> identifier n ∈ identifierSet (fold_left visit l st).
Proof.
  induction l as [|[p g] l IH]; intros st q n Hin; simpl in *.
  - now apply elem_of_nil in Hin.
  - apply elem_of_cons in Hin as [Heq | Hin].
    + inversion Heq; subst. apply visit_identifierSet_mono. simpl. set_solver.
    + now apply IH with (q := q).
Qed.

Lemma length_nodesFrom g : forall p, length (nodesFrom p g) = tree_size g.
Proof.
  induction g as [i n cs IH] using ConnectionGroup_tree_ind.
  intros p. simpl. f_equal.
  induction IH as [|c cs Hc _ IHcs]; simpl; [reflexivity|].
  now rewrite length_app, Hc, IHcs.
Qed.

Lemma getGroupLookups_visits rootGroup :
  getGroupLookups rootGroup = fold_left visit (nodes rootGroup) emptyLookups.
Proof. unfold getGroupLookups, nodes. now rewrite saveLookups_nodesFrom. Qed.

(** C9. In a tree in which the canonical paths of the nodes are pairwise
    distinct, looking up the canonical path of any node in the lookups built
    from the tree gives the identifier of that node, and that identifier is
    in the identifier set. The traversal is one visit for each node of the
    tree: it is the left-to-right pass of [visit] over the list of nodes, in
    which every node occurs once and whose length is the size of the tree. *)
Theorem getGroupLookups_round_trip (rootGroup : ConnectionGroup) :
  NoDup (map fst (nodes rootGroup)) ->
  (forall p node, (p, node) ∈ nodes rootGroup ->
     groupLookups (getGroupLookups rootGroup) !! p = Some (identifier node) /\
     identifier node ∈ identifierSet (getGroupLookups rootGroup)) /\
  getGroupLookups rootGroup = fold_left visit (nodes rootGroup) emptyLookups /\
  NoDup (nodes rootGroup) /\
  length (nodes rootGroup) = tree_size rootGroup.
Proof.
  intros Hnd. split; [intros p node Hin; split | repeat split].
  - rewrite getGroupLookups_visits. now apply visit_groupLookups.
  - rewrite getGroupLookups_visits. now apply visit_identifierSet with (q := p).
  - apply getGroupLookups_visits.
  - now apply (NoDup_fmap_1 fst).
  - apply length_nodesFrom.
Qed.

(** Witness of [getGroupLookups_round_trip] on [sampleTree]. *)
Lemma getGroupLookups_round_trip_sample :
  NoDup (map fst (nodes sampleTree)) /\
  ((forall p node, (p, node) ∈ nodes sampleTree ->
      groupLookups (getGroupLookups sampleTree) !! p = Some (identifier node) /\
      identifier node ∈ identifierSet (getGroupLookups sampleTree)) /\
   getGroupLookups sampleTree = fold_left visit (nodes sampleTree) emptyLookups /\
   NoDup (nodes sampleTree) /\
   length (nodes sampleTree) = tree_size sampleTree).
Proof.
  assert (H : NoDup (map fst (nodes sampleTree)))
    by (apply (bool_decide_unpack _); vm_compute; exact I).
  exact (conj H (getGroupLookups_round_trip sampleTree H)).
Defined.

(** ** The group transformer *)

Lemma truthy_Some v s : truthy v = Some s <-> v = Some s /\ s <> "".
Proof.
  unfold truthy. destruct v as [t|]; [|split; [discriminate | intros [? _]; discriminate]].
  destruct (String.eqb_spec t ""); split.
  - discriminate.
  - intros [[= ->] ?]. contradiction.
  - intros [= ->]. now split.
  - now intros [-> _].
Qed.

Lemma truthy_None v : truthy v = None <-> v = None \/ v = Some "".
Proof.
  unfold truthy. destruct v as [t|]; [|split; auto].
  destruct (String.eqb_spec t ""); subst; split; auto; try discriminate.
  intros [?|[= ?]]; [discriminate | contradiction].
Qed.

Lemma truthy_nonempty s : s <> "" -> truthy (Some s) = Some s.
Proof. intros H. now apply truthy_Some. Qed.

(** The branch taken for a connection with a truthy group and no truthy
    parent identifier: the absolute path is looked up. *)
Lemma groupTransformer_lookup lk connection g :
  ImportConnection.group connection = Some g -> g <> "" ->
  truthy (ImportConnection.parentIdentifier connection) = None ->
  groupTransformer lk connection =
    match truthy (groupLookups lk !! absoluteGroupPath g) with
    | Some id => Return (withParentIdentifier connection id)
    | None => Throw (ThrownParseError (invalidGroup g))
    end.
Proof.
  intros Hg Hne Hp. unfold groupTransformer.
  rewrite Hg, (truthy_nonempty g Hne), Hp. reflexivity.
Qed.

(** The branch taken for a connection without a truthy group. *)
Lemma groupTransformer_no_group lk connection :
  truthy (ImportConnection.group connection) = None ->
  groupTransformer lk connection =
    match truthy (ImportConnection.parentIdentifier connection) with
    | None => Return connection
    | Some p =>
        if identifierSetHas lk p then Return connection
        else Throw (ThrownParseError (invalidGroupIdentifier p))
    end.
Proof. intros Hg. unfold groupTransformer. now rewrite Hg. Qed.

Lemma identifierSetHas_true lk p :
  identifierSetHas lk p = true <-> p ∈ identifierSet lk \/ p ∈ objectPrototypeNames.
Proof.
  unfold identifierSetHas. rewrite orb_true_iff, !bool_decide_eq_true. reflexivity.
Qed.

Lemma identifierSetHas_false lk p :
  identifierSetHas lk p = false <->
  (p ∉ identifierSet lk) /\ (p ∉ objectPrototypeNames).
Proof.
  unfold identifierSetHas. rewrite orb_false_iff, !bool_decide_eq_false. reflexivity.
Qed.

(** No inherited name begins with the identifier of the root group. *)
Lemma objectPrototypeNames_not_ROOT :
  Forall (fun n => startsWith n ROOT_GROUP_IDENTIFIER = false) objectPrototypeNames.
Proof. repeat constructor. Qed.

(** C2, as amended. For a connection whose group is a non-empty string and
    whose parent identifier is absent or empty: when the lookups map the
    absolute path of the group to a non-empty identifier, the transformer
    returns a connection with [parentIdentifier] set to that identifier and
    with the users, the user groups and the other properties of the given
    one; when the lookups have no entry for the absolute path, it throws
    the invalid-group error, whose variables carry the group string as the
    connection gave it. *)
Theorem groupTransformer_group lk connection g :
  ImportConnection.group connection = Some g -> g <> "" ->
  truthy (ImportConnection.parentIdentifier connection) = None ->
  (forall id, groupLookups lk !! absoluteGroupPath g = Some id -> id <> "" ->
     exists r,
       groupTransformer lk connection = Return r /\
       ImportConnection.parentIdentifier r = Some id /\
       ImportConnection.users r = ImportConnection.users connection /\
       ImportConnection.groups r = ImportConnection.groups connection /\
       ImportConnection.others r = ImportConnection.others connection) /\
  (groupLookups lk !! absoluteGroupPath g = None ->
     groupTransformer lk connection = Throw (ThrownParseError (invalidGroup g)) /\
     key (invalidGroup g) = Some "IMPORT.ERROR_INVALID_GROUP" /\
     variables (invalidGroup g) = [("GROUP", g)]).
Proof.
  intros Hg Hne Hp. rewrite (groupTransformer_lookup lk connection g Hg Hne Hp).
  split.
  - intros id Hid Hidne. rewrite Hid, (truthy_nonempty id Hidne).
    exists (withParentIdentifier connection id). repeat split.
  - intros Hnone. rewrite Hnone. repeat split.
Qed.

(** Witness of [groupTransformer_group]: [{group: "/sub"}] and the lookups
    of [sampleTree]. *)
Lemma groupTransformer_group_sample :
  groupLookups sampleLookups !! absoluteGroupPath "/sub" = Some "g-sub" /\
  exists r,
    groupTransformer sampleLookups (withGroup "/sub") = Return r /\
    ImportConnection.parentIdentifier r = Some "g-sub".
Proof.
  assert (H : groupLookups sampleLookups !! absoluteGroupPath "/sub" = Some "g-sub")
    by (vm_compute; reflexivity).
  split; [exact H|].
  destruct (proj1 (groupTransformer_group sampleLookups (withGroup "/sub") "/sub"
                     eq_refl ltac:(discriminate) eq_refl) "g-sub" H ltac:(discriminate))
    as (r & Hr & Hp & _).
  exists r. split; [exact Hr | exact Hp].
Defined.

(** C2, counterexample. Three connections with a group field and no parent
    identifier, each with an absolute path the lookups have an entry for.
    For [{group: "ROOT/sub"}] the returned connection still has its group
    field. For [{group: ""}] the connection is returned as it is, without a
    parent identifier. For [{group: "ROOT"}] and a tree whose root has the
    empty identifier, the transformer throws. *)
Lemma groupTransformer_group_counterexample :
  (groupLookups sampleLookups !! absoluteGroupPath "ROOT/sub" = Some "g-sub" /\
   exists r, groupTransformer sampleLookups (withGroup "ROOT/sub") = Return r /\
             ImportConnection.group r = Some "ROOT/sub") /\
  (groupLookups sampleLookups !! absoluteGroupPath "" = Some "ROOT" /\
   exists r, groupTransformer sampleLookups (withGroup "") = Return r /\
             ImportConnection.parentIdentifier r = None) /\
  (groupLookups (getGroupLookups anonymousRoot) !! absoluteGroupPath "ROOT" = Some "" /\
   groupTransformer (getGroupLookups anonymousRoot) (withGroup "ROOT")
     = Throw (ThrownParseError (invalidGroup "ROOT"))).
Proof.
  repeat split; try (vm_compute; reflexivity);
    eexists; split; vm_compute; reflexivity.
Qed.

(** C3, as amended. A connection whose group and parent identifier are both
    non-empty strings makes the transformer throw the ambiguous-parent
    error, whatever the lookups hold: neither the group path nor the parent
    identifier is looked up first. *)
Theorem groupTransformer_ambiguous lk connection g p :
  ImportConnection.group connection = Some g -> g <> "" ->
  ImportConnection.parentIdentifier connection = Some p -> p <> "" ->
  groupTransformer lk connection = Throw (ThrownParseError ambiguousParentGroup) /\
  key ambiguousParentGroup = Some "IMPORT.ERROR_AMBIGUOUS_PARENT_GROUP".
Proof.
  intros Hg Hgne Hp Hpne. split; [|reflexivity].
  unfold groupTransformer.
  now rewrite Hg, Hp, (truthy_nonempty g Hgne), (truthy_nonempty p Hpne).
Qed.

(** Witness of [groupTransformer_ambiguous]:
    [{group: "Nonexistent", parentIdentifier: "g-42"}]. *)
Lemma groupTransformer_ambiguous_sample :
  groupTransformer sampleLookups (withBoth "Nonexistent" "g-42")
    = Throw (ThrownParseError ambiguousParentGroup) /\
  key ambiguousParentGroup = Some "IMPORT.ERROR_AMBIGUOUS_PARENT_GROUP".
Proof.
  apply (groupTransformer_ambiguous sampleLookups (withBoth "Nonexistent" "g-42")
           "Nonexistent" "g-42"); [reflexivity | discriminate | reflexivity | discriminate].
Defined.

(** C3, counterexample. Two connections that have both fields, one of them
    the empty string: [{group: "ROOT/sub", parentIdentifier: ""}] is
    resolved through its group, and [{group: "", parentIdentifier: "g-42"}]
    is returned as it is; neither throws the ambiguous-parent error. *)
Lemma groupTransformer_ambiguous_counterexample :
  (ImportConnection.group (withBoth "ROOT/sub" "") = Some "ROOT/sub" /\
   ImportConnection.parentIdentifier (withBoth "ROOT/sub" "") = Some "" /\
   groupTransformer sampleLookups (withBoth "ROOT/sub" "")
     = Return (withParentIdentifier (withBoth "ROOT/sub" "") "g-sub")) /\
  (ImportConnection.group (withBoth "" "g-42") = Some "" /\
   ImportConnection.parentIdentifier (withBoth "" "g-42") = Some "g-42" /\
   groupTransformer sampleLookups (withBoth "" "g-42") = Return (withBoth "" "g-42")).
Proof. repeat split; vm_compute; reflexivity. Qed.

(** ** Absolute group paths *)

Lemma string_app_cons c (a b : string) : String c a +:+ b = String c (a +:+ b).
Proof. reflexivity. Qed.

Lemma string_length_app (a b : string) :
  String.length (a +:+ b) = String.length a + String.length b.
Proof.
  induction a as [|c a IH]; [reflexivity|].
  rewrite string_app_cons. simpl. now rewrite IH.
Qed.

Lemma startsWith_app (a s : string) : startsWith (a +:+ s) a = true.
Proof.
  unfold startsWith. induction a as [|c a IH]; [now destruct s|].
  rewrite string_app_cons. simpl. destruct (ascii_dec c c); [exact IH | contradiction].
Qed.

Lemma substring_skip (a s : string) k n :
  String.substring (String.length a + k) n (a +:+ s) = String.substring k n s.
Proof.
  induction a as [|c a IH]; [reflexivity|].
  rewrite string_app_cons. simpl. exact IH.
Qed.

Lemma substring_take (s t : string) :
  String.substring 0 (String.length s) (s +:+ t) = s.
Proof.
  induction s as [|c s IH]; [now destruct t|].
  rewrite string_app_cons. simpl. now rewrite IH.
Qed.

Lemma endsWith_app (a s t : string) :
  String.length t <= String.length s ->
  endsWith (a +:+ s) t = endsWith s t.
Proof.
  intros Hle. unfold endsWith. rewrite string_length_app.
  replace (String.length a + String.length s - String.length t)
    with (String.length a + (String.length s - String.length t)) by lia.
  rewrite substring_skip. f_equal.
  apply eq_true_iff_eq. rewrite !Nat.leb_le. lia.
Qed.

Lemma endsWith_self (s t : string) : endsWith (s +:+ t) t = true.
Proof.
  unfold endsWith. rewrite string_length_app.
  replace (String.length s + String.length t - String.length t)
    with (String.length s + 0) by lia.
  rewrite substring_skip.
  replace (String.substring 0 (String.length t) t) with t.
  - rewrite String.eqb_refl, andb_true_r. apply Nat.leb_le. lia.
  - clear. induction t as [|c t IH]; [reflexivity|]. simpl. now rewrite <- IH.
Qed.

Lemma slice_0_m1_app (s : string) : slice_0_m1 (s +:+ "/") = s.
Proof.
  unfold slice_0_m1. rewrite string_length_app. simpl.
  replace (String.length s + 1 - 1) with (String.length s) by lia.
  apply substring_take.
Qed.

(** Whatever the path below the root, its relative spelling, the spelling
    with a leading slash, the spelling from the root and the spelling with
    a trailing slash have the same absolute path. *)
Lemma absoluteGroupPath_relative (s : string) :
  s <> "" -> startsWith s "/" = false -> startsWith s "ROOT" = false ->
  endsWith s "/" = false ->
  Forall (fun g => absoluteGroupPath g = "ROOT/" +:+ s)
         [s; "/" +:+ s; "ROOT/" +:+ s; "ROOT/" +:+ s +:+ "/"].
Proof.
  intros Hne Hslash Hroot Hend.
  assert (Hlen : 1 <= String.length s) by (destruct s; [contradiction | simpl; lia]).
  assert (Hkeep : forall a, endsWith (a +:+ s) "/" = false)
    by (intros a; rewrite endsWith_app by exact Hlen; exact Hend).
  unfold absoluteGroupPath, ROOT_GROUP_IDENTIFIER.
  repeat constructor.
  - rewrite Hslash, Hroot. simpl negb. cbv iota.
    change ("ROOT" +:+ "/" +:+ s) with ("ROOT/" +:+ s). now rewrite (Hkeep "ROOT/").
  - rewrite (startsWith_app "/" s). cbv iota.
    change ("ROOT" +:+ "/" +:+ s) with ("ROOT/" +:+ s). now rewrite (Hkeep "ROOT/").
  - replace (startsWith ("ROOT/" +:+ s) "/") with false by reflexivity.
    replace (startsWith ("ROOT/" +:+ s) "ROOT") with true
      by (symmetry; apply (startsWith_app "ROOT" ("/" +:+ s))).
    simpl negb. cbv iota. now rewrite (Hkeep "ROOT/").
  - replace (startsWith ("ROOT/" +:+ s +:+ "/") "/") with false by reflexivity.
    replace (startsWith ("ROOT/" +:+ s +:+ "/") "ROOT") with true
      by (symmetry; apply (startsWith_app "ROOT" ("/" +:+ s +:+ "/"))).
    simpl negb. cbv iota.
    replace ("ROOT/" +:+ s +:+ "/") with (("ROOT/" +:+ s) +:+ "/")
      by apply string_app_assoc.
    now rewrite endsWith_self, slice_0_m1_app.
Qed.

(** The four spellings have the same absolute path. *)
Lemma absoluteGroupPath_spellings :
  Forall (fun g => absoluteGroupPath g = "ROOT/sub")
         ["sub"; "/sub"; "ROOT/sub"; "ROOT/sub/"].
Proof. apply (absoluteGroupPath_relative "sub"); [discriminate | reflexivity..]. Qed.

(** C8. Against lookups that map the path ROOT/sub to an identifier, a
    connection without a parent identifier is resolved to that identifier
    whichever of the spellings sub, /sub, ROOT/sub and ROOT/sub/ its group
    has. *)
Theorem groupTransformer_spellings lk connection id :
  groupLookups lk !! "ROOT/sub" = Some id -> id <> "" ->
  truthy (ImportConnection.parentIdentifier connection) = None ->
  Forall (fun g =>
            exists r, groupTransformer lk (withGroupOf connection g) = Return r /\
                      ImportConnection.parentIdentifier r = Some id)
         ["sub"; "/sub"; "ROOT/sub"; "ROOT/sub/"].
Proof.
  intros Hid Hne Hp.
  eapply Forall_impl; [exact absoluteGroupPath_spellings|].
  intros g Hg. simpl in Hg.
  destruct (String.eqb_spec g "") as [->|Hgne]; [discriminate Hg|].
  exists (withParentIdentifier (withGroupOf connection g) id). split; [|reflexivity].
  rewrite (groupTransformer_lookup lk (withGroupOf connection g) g eq_refl Hgne Hp).
  now rewrite Hg, Hid, (truthy_nonempty id Hne).
Qed.

(** Witness of [groupTransformer_spellings]: the lookups of [sampleTree]
    and the empty connection. *)
Lemma groupTransformer_spellings_sample :
  groupLookups sampleLookups !! "ROOT/sub" = Some "g-sub" /\
  Forall (fun g =>
            exists r, groupTransformer sampleLookups
                        (withGroupOf ImportConnection.empty g) = Return r /\
                      ImportConnection.parentIdentifier r = Some "g-sub")
         ["sub"; "/sub"; "ROOT/sub"; "ROOT/sub/"].
Proof.
  assert (H : groupLookups sampleLookups !! "ROOT/sub" = Some "g-sub")
    by (vm_compute; reflexivity).
  split; [exact H|].
  apply (groupTransformer_spellings sampleLookups ImportConnection.empty "g-sub" H);
    [discriminate | reflexivity].
Defined.

(** X22. Field presence is decided by truthiness. A connection whose group
    is the empty string takes the branch of a connection without a group: it
    is returned as it is when its parent identifier is absent, empty, in the
    identifier set or a name inherited from [Object.prototype], and the
    transformer throws the invalid-identifier error when its parent
    identifier is a non-empty string that is neither. A connection with a
    non-empty group and the empty string as parent identifier does not
    throw the ambiguous-parent error: the absolute path of its group is
    looked up. *)
Theorem groupTransformer_empty_string lk connection :
  (ImportConnection.group connection = Some "" ->
     (truthy (ImportConnection.parentIdentifier connection) = None ->
        groupTransformer lk connection = Return connection) /\
     (forall p, ImportConnection.parentIdentifier connection = Some p ->
        p ∈ identifierSet lk \/ p ∈ objectPrototypeNames ->
        groupTransformer lk connection = Return connection) /\
     (forall p, ImportConnection.parentIdentifier connection = Some p ->
        p <> "" -> p ∉ identifierSet lk -> p ∉ objectPrototypeNames ->
        groupTransformer lk connection
          = Throw (ThrownParseError (invalidGroupIdentifier p)))) /\
  (forall g, ImportConnection.group connection = Some g -> g <> "" ->
     ImportConnection.parentIdentifier connection = Some "" ->
     groupTransformer lk connection <> Throw (ThrownParseError ambiguousParentGroup) /\
     groupTransformer lk connection =
       match truthy (groupLookups lk !! absoluteGroupPath g) with
       | Some id => Return (withParentIdentifier connection id)
       | None => Throw (ThrownParseError (invalidGroup g))
       end).
Proof.
  split.
  - intros Hg.
    assert (Hno : truthy (ImportConnection.group connection) = None)
      by (rewrite Hg; reflexivity).
    rewrite (groupTransformer_no_group lk connection Hno).
    split; [|split].
    + now intros ->.
    + intros p Hp Hin. rewrite Hp.
      destruct (truthy (Some p)) as [q|] eqn:E; [|reflexivity].
      apply truthy_Some in E as [[= <-] _].
      now rewrite (proj2 (identifierSetHas_true lk p) Hin).
    + intros p Hp Hne Hnotin Hnotinherited. rewrite Hp, (truthy_nonempty p Hne).
      now rewrite (proj2 (identifierSetHas_false lk p) (conj Hnotin Hnotinherited)).
  - intros g Hg Hne Hp.
    assert (Hnop : truthy (ImportConnection.parentIdentifier connection) = None)
      by (rewrite Hp; reflexivity).
    rewrite (groupTransformer_lookup lk connection g Hg Hne Hnop).
    split; [|reflexivity].
    destruct (truthy (groupLookups lk !! absoluteGroupPath g)); discriminate.
Qed.

(** Witness of [groupTransformer_empty_string]: the connections
    [{group: "", parentIdentifier: "nope"}] and
    [{group: "ROOT/East", parentIdentifier: ""}] against the lookups of
    [sampleTree]. *)
Lemma groupTransformer_empty_string_sample :
  groupTransformer sampleLookups (withBoth "" "nope")
    = Throw (ThrownParseError (invalidGroupIdentifier "nope")) /\
  groupTransformer sampleLookups (withBoth "ROOT/East" "")
    <> Throw (ThrownParseError ambiguousParentGroup).
Proof.
  split.
  - apply (proj1 (groupTransformer_empty_string sampleLookups (withBoth "" "nope")) eq_refl);
      [reflexivity | discriminate | |];
      apply (bool_decide_unpack _); vm_compute; exact I.
  - apply (proj2 (groupTransformer_empty_string sampleLookups (withBoth "ROOT/East" ""))
             "ROOT/East"); [reflexivity | discriminate | reflexivity].
Defined.

(** C10. The connection [{group: "", parentIdentifier: p}], for a name [p]
    inherited from [Object.prototype], is returned as it is, whatever the
    lookups hold: the read [identifierSet[p]] is truthy. So it is for
    "constructor" against the lookups of [sampleTree], whose identifier
    set does not hold "constructor": the transformer does not throw the
    invalid-identifier error for this parent identifier, which is non-empty
    and the identifier of no group. *)
Theorem groupTransformer_inherited_name lk :
  Forall (fun p => groupTransformer lk (withBoth "" p) = Return (withBoth "" p))
         objectPrototypeNames /\
  ("constructor" ∉ identifierSet sampleLookups) /\
  (forall q n, (q, n) ∈ nodes sampleTree -> identifier n <> "constructor") /\
  groupTransformer sampleLookups (withBoth "" "constructor")
    = Return (withBoth "" "constructor") /\
  groupTransformer sampleLookups (withBoth "" "constructor")
    <> Throw (ThrownParseError (invalidGroupIdentifier "constructor")).
Proof.
  assert (Hall : forall p, p ∈ objectPrototypeNames ->
                   groupTransformer lk (withBoth "" p) = Return (withBoth "" p)).
  { intros p Hp.
    rewrite (groupTransformer_no_group lk (withBoth "" p) eq_refl).
    cbn [ImportConnection.parentIdentifier withBoth].
    destruct (truthy (Some p)) as [q|] eqn:E; [|reflexivity].
    apply truthy_Some in E as [[= <-] _].
    now rewrite (proj2 (identifierSetHas_true lk p) (or_intror Hp)). }
  split; [apply Forall_forall; exact Hall|].
  split; [apply (bool_decide_unpack _); vm_compute; exact I|].
  split.
  - intros q n Hin.
    repeat (apply elem_of_cons in Hin as [Hin | Hin];
            [inversion Hin; subst; discriminate|]).
    now apply elem_of_nil in Hin.
  - split; [vm_compute; reflexivity|].
    intros H. vm_compute in H. discriminate.
Qed.

(** ** The grant maps *)

Lemma addIndex_lookup index grants a id :
  default [] (addIndex index grants a !! id)
    = default [] (grants !! id) ++ (if decide (a = id) then [index] else []).
Proof.
  unfold addIndex. destruct (decide (a = id)) as [->|Hne].
  - destruct (grants !! id) as [l|] eqn:E; now rewrite lookup_insert_eq.
  - destruct (grants !! a); rewrite lookup_insert_ne by exact Hne;
      now rewrite app_nil_r.
Qed.

Lemma addIndexForEach_lookup index ids : forall grants id,
  default [] (addIndexForEach index ids grants !! id)
    = default [] (grants !! id) ++ replicate (count_occ string_dec ids id) index.
Proof.
  unfold addIndexForEach.
  induction ids as [|a ids IH]; intros grants id; simpl.
  - now rewrite app_nil_r.
  - rewrite IH, addIndex_lookup, <- app_assoc. f_equal.
    destruct (string_dec a id), (decide (a = id)); try contradiction; reflexivity.
Qed.

Lemma grantsFrom_lookup ls : forall index grants id,
  default [] (grantsFrom index ls grants !! id)
    = default [] (grants !! id) ++ indicesOf id index ls.
Proof.
  induction ls as [|ids ls IH]; intros index grants id; simpl.
  - now rewrite app_nil_r.
  - now rewrite IH, addIndexForEach_lookup, <- app_assoc.
Qed.

Lemma count_occ_replicate n (x y : nat) :
  count_occ Nat.eq_dec (replicate n x) y = if decide (x = y) then n else 0.
Proof.
  induction n as [|n IH]; simpl.
  - now destruct (decide (x = y)).
  - rewrite IH. destruct (Nat.eq_dec x y), (decide (x = y)); try contradiction; reflexivity.
Qed.

Lemma indicesOf_count_below id ls : forall index k,
  k < index -> count_occ Nat.eq_dec (indicesOf id index ls) k = 0.
Proof.
  induction ls as [|ids ls IH]; intros index k Hlt; simpl; [reflexivity|].
  rewrite count_occ_app, count_occ_replicate, IH by lia.
  destruct (decide (index = k)); [lia | reflexivity].
Qed.

Lemma indicesOf_count id ls : forall index j ids,
  ls !! j = Some ids ->
  count_occ Nat.eq_dec (indicesOf id index ls) (index + j)
    = count_occ string_dec ids id.
Proof.
  induction ls as [|a ls IH]; intros index j ids Hj; [discriminate|].
  simpl. rewrite count_occ_app, count_occ_replicate.
  destruct j as [|j]; simpl in Hj.
  - inversion Hj; subst. rewrite Nat.add_0_r.
    rewrite indicesOf_count_below by lia.
    destruct (decide (index = index)); [lia | contradiction].
  - destruct (decide (index = index + S j)); [lia|].
    rewrite <- Nat.add_succ_comm. now apply IH.
Qed.

(** In the grants of a whole batch, an identifier a connection names is a
    key, and the index of the connection occurs in its list as often as the
    identifier occurs in the list of the connection. *)
Lemma grantsFrom_occurrences ls i ids id :
  ls !! i = Some ids -> In id ids ->
  exists l, grantsFrom 0 ls ∅ !! id = Some l /\
            count_occ Nat.eq_dec l i = count_occ string_dec ids id /\
            1 <= count_occ Nat.eq_dec l i.
Proof.
  intros Hi Hin.
  pose proof (grantsFrom_lookup ls 0 ∅ id) as H.
  rewrite lookup_empty in H. simpl in H.
  pose proof (indicesOf_count id ls 0 i ids Hi) as Hc. simpl in Hc.
  apply (count_occ_In string_dec) in Hin.
  destruct (grantsFrom 0 ls ∅ !! id) as [l|]; simpl in H.
  - exists l. rewrite H, Hc. repeat split; lia.
  - rewrite <- H in Hc. simpl in Hc. lia.
Qed.

(** ** The reduction over the entries *)

Lemma applyTransforms_returning fs : forall data,
  applyTransforms (map returning fs) data = Return (transformed fs data).
Proof. induction fs as [|f fs IH]; intros data; simpl; [reflexivity | apply IH]. Qed.

Lemma tryGroupTransformer_cases lk c :
  (exists c', groupTransformer lk c = Return c' /\
              tryGroupTransformer lk c = (c', []) /\
              ImportConnection.users c' = ImportConnection.users c /\
              ImportConnection.groups c' = ImportConnection.groups c) \/
  (exists e, groupTransformer lk c = Throw e /\ tryGroupTransformer lk c = (c, [e])).
Proof.
  unfold tryGroupTransformer.
  destruct (groupTransformer lk c) as [c'|e] eqn:E; [left | right; eauto].
  exists c'. split; [reflexivity|]. split; [reflexivity|].
  unfold groupTransformer in E.
  repeat match type of E with
         | context [match ?x with _ => _ end] => destruct x
         end; inversion E; subst; split; reflexivity.
Qed.

Lemma tryGroupTransformer_usersOf lk c :
  usersOf (tryGroupTransformer lk c).1 = usersOf c /\
  groupsOf (tryGroupTransformer lk c).1 = groupsOf c.
Proof.
  unfold usersOf, groupsOf.
  destruct (tryGroupTransformer_cases lk c) as [(c' & _ & -> & Hu & Hg) | (e & _ & ->)];
    simpl; [rewrite Hu, Hg|]; split; reflexivity.
Qed.

Section Reduce.
Context {Connection : Type}.
Variable newConnection : ImportConnection.t -> Connection.
Variable lk : Lookups.
Variable fs : list Transform.

Lemma reducer_returns parseResult data index c :
  applyTransforms fs data = Return c ->
  reducer newConnection lk fs parseResult data index
    = Return (afterTransforms newConnection lk parseResult c index).
Proof. intros H. unfold reducer. now rewrite H. Qed.

Lemma reducer_throws parseResult data index e :
  applyTransforms fs data = Throw e ->
  reducer newConnection lk fs parseResult data index = Throw e.
Proof. intros H. unfold reducer. now rewrite H. Qed.

(** When the transform functions return on every entry, the reduction
    returns, and its result extends the initial one entry by entry. *)
Lemma reduce_returns entries cs :
  Forall2 (fun data c => applyTransforms fs data = Return c) entries cs ->
  forall index parseResult,
  exists r,
    reduce newConnection lk fs entries index parseResult = Return r /\
    ParseResult.patches r
      = ParseResult.patches parseResult
        ++ map (fun c => addPatch newConnection (tryGroupTransformer lk c).1) cs /\
    ParseResult.errors r
      = ParseResult.errors parseResult
        ++ map (fun c => (tryGroupTransformer lk c).2) cs /\
    ParseResult.users r
      = grantsFrom index (map usersOf cs) (ParseResult.users parseResult) /\
    ParseResult.groups r
      = grantsFrom index (map groupsOf cs) (ParseResult.groups parseResult) /\
    ParseResult.hasErrors r
      = ParseResult.hasErrors parseResult
        || existsb (fun c => negb (length (tryGroupTransformer lk c).2 =? 0)%nat) cs.
Proof.
  induction 1 as [|data c entries cs Hc _ IH]; intros index parseResult.
  - exists parseResult. simpl. rewrite !app_nil_r, orb_false_r. repeat split.
  - simpl. rewrite (reducer_returns parseResult data index c Hc).
    destruct (IH (S index) (afterTransforms newConnection lk parseResult c index))
      as (r & Hr & Hp & He & Hu & Hg & Hh).
    exists r. split; [exact Hr|].
    rewrite Hp, He, Hu, Hg, Hh.
    destruct (tryGroupTransformer_usersOf lk c) as [<- <-].
    unfold afterTransforms, usersOf, groupsOf.
    destruct (tryGroupTransformer lk c) as [c' es]; simpl.
    rewrite <- !app_assoc. simpl. repeat split.
    destruct es; simpl; [reflexivity | now rewrite orb_true_r].
Qed.

(** A transform function that throws on an entry ends the reduction: the
    value it threw is thrown by [reduce]. *)
Lemma reduce_throws before data after e :
  Forall (fun data' => exists c, applyTransforms fs data' = Return c) before ->
  applyTransforms fs data = Throw e ->
  forall index parseResult,
    reduce newConnection lk fs (before ++ data :: after) index parseResult = Throw e.
Proof.
  induction 1 as [|data' before [c Hc] _ IH]; intros He index parseResult; simpl.
  - now rewrite (reducer_throws parseResult data index e He).
  - rewrite (reducer_returns parseResult data' index c Hc). now apply IH.
Qed.
End Reduce.

(** ** parseConnectionData *)

Lemma Forall2_transformed fs entries :
  Forall2 (fun data c => applyTransforms (map returning fs) data = Return c)
          entries (map (transformed fs) entries).
Proof.
  induction entries as [|data entries IH]; simpl; constructor;
    [apply applyTransforms_returning | exact IH].
Qed.

(** On a non-empty array whose entries the transform functions all return
    on, the promise resolves, with the result of the reduction. *)
Lemma parseConnectionData_resolves {Connection : Type}
    (newConnection : ImportConnection.t -> Connection) rootGroup entries fs cs :
  entries <> [] ->
  Forall2 (fun data c => applyTransforms fs data = Return c) entries cs ->
  exists r,
    parseConnectionData newConnection rootGroup (IsArray entries) fs = Resolved r /\
    reduce newConnection (getGroupLookups rootGroup) fs entries 0 ParseResult.new
      = Return r.
Proof.
  intros Hne Hcs. unfold parseConnectionData, performBasicChecks.
  destruct entries as [|data entries]; [contradiction|].
  change (length (data :: entries) =? 0)%nat with false. cbv iota.
  destruct (reduce_returns newConnection (getGroupLookups rootGroup) fs _ _ Hcs
              0 ParseResult.new) as (r & Hr & _).
  exists r. now rewrite Hr.
Qed.

(** C1. For a non-empty array of entries and transform functions that
    return on every entry, the promise resolves with a result that has one
    patch and one list of errors for each entry, in the order of the
    entries: at the index of an entry, the patch adds the connection made
    from the object the group transformer returned and the list of errors
    is empty, or, when the group transformer threw, the patch adds the
    connection made from the object as it was before and the list holds the
    thrown error. *)
Theorem parseConnectionData_aligned {Connection : Type}
    (newConnection : ImportConnection.t -> Connection) rootGroup entries
    (fs : list (ImportConnection.t -> ImportConnection.t)) :
  entries <> [] ->
  exists r,
    parseConnectionData newConnection rootGroup (IsArray entries) (map returning fs)
      = Resolved r /\
    length (ParseResult.patches r) = length entries /\
    length (ParseResult.errors r) = length entries /\
    forall i data, entries !! i = Some data ->
      (forall c', groupTransformer (getGroupLookups rootGroup) (transformed fs data)
                    = Return c' ->
         ParseResult.patches r !! i
           = Some {| op := "add"; path := "/"; value := newConnection c' |} /\
         ParseResult.errors r !! i = Some []) /\
      (forall e, groupTransformer (getGroupLookups rootGroup) (transformed fs data)
                   = Throw e ->
         ParseResult.patches r !! i
           = Some {| op := "add"; path := "/";
                     value := newConnection (transformed fs data) |} /\
         ParseResult.errors r !! i = Some [e]).
Proof.
  intros Hne.
  pose proof (Forall2_transformed fs entries) as Hcs.
  destruct (parseConnectionData_resolves newConnection rootGroup _ _ _ Hne Hcs)
    as (r & Hr & Hred).
  destruct (reduce_returns newConnection (getGroupLookups rootGroup) _ _ _ Hcs
              0 ParseResult.new) as (r' & Hr' & Hp & He & _).
  rewrite Hred in Hr'. inversion Hr'; subst r'. simpl in Hp, He.
  exists r. split; [exact Hr|].
  rewrite Hp, He, !length_map. split; [reflexivity|]. split; [reflexivity|].
  intros i data Hi.
  rewrite !list_lookup_fmap, Hi. simpl.
  destruct (tryGroupTransformer_cases (getGroupLookups rootGroup) (transformed fs data))
    as [(c' & Hc' & -> & _) | (e & Hthrow & ->)]; simpl.
  - rewrite Hc'. split; [intros ? [= <-]; split; reflexivity | discriminate].
  - rewrite Hthrow. split; [discriminate | intros ? [= <-]; split; reflexivity].
Qed.

(** Witness of [parseConnectionData_aligned]: the two entries
    [{group: "ROOT/East"}] and [{group: "Nonexistent", parentIdentifier:
    "g-42"}], no transform function, [sampleTree]. *)
Lemma parseConnectionData_aligned_sample :
  exists r,
    parseConnectionData (fun c => c) sampleTree
      (IsArray [withGroup "ROOT/East"; withBoth "Nonexistent" "g-42"]) []
      = Resolved r /\
    length (ParseResult.patches r) = 2 /\
    length (ParseResult.errors r) = 2.
Proof.
  destruct (parseConnectionData_aligned (fun c => c) sampleTree
              [withGroup "ROOT/East"; withBoth "Nonexistent" "g-42"] [])
    as (r & Hr & Hp & He & _); [discriminate|].
  exists r. repeat split; assumption.
Defined.

(** C4, as amended. A value thrown by a transform function is not caught:
    when the transform functions return on the entries before an entry and
    throw on that entry, the promise is rejected with the thrown value, and
    no result is produced for any entry of the batch. *)
Theorem parseConnectionData_transform_throws {Connection : Type}
    (newConnection : ImportConnection.t -> Connection) rootGroup
    before data after fs e :
  Forall (fun data' => exists c, applyTransforms fs data' = Return c) before ->
  applyTransforms fs data = Throw e ->
  parseConnectionData newConnection rootGroup (IsArray (before ++ data :: after)) fs
    = Rejected e /\
  forall r,
    parseConnectionData newConnection rootGroup (IsArray (before ++ data :: after)) fs
      <> Resolved r.
Proof.
  intros Hbefore He.
  assert (H : parseConnectionData newConnection rootGroup
                (IsArray (before ++ data :: after)) fs = Rejected e).
  { unfold parseConnectionData, performBasicChecks.
    rewrite length_app. simpl length.
    replace (length before + S (length after) =? 0)%nat with false
      by (symmetry; apply Nat.eqb_neq; lia).
    now rewrite (reduce_throws newConnection _ fs before data after e Hbefore He). }
  split; [exact H | intros r; rewrite H; discriminate].
Qed.

(** Witness of [parseConnectionData_transform_throws]: [requireName] on the
    entries [{name: "a"}], [{group: "x"}] and [{name: "b"}]. *)
Lemma parseConnectionData_transform_throws_sample :
  parseConnectionData (fun c => c) sampleTree
    (IsArray ([named "a"] ++ withGroup "x" :: [named "b"])) [requireName]
    = Rejected (ThrownOther "Error: name is required").
Proof.
  apply (parseConnectionData_transform_throws (fun c => c) sampleTree
           [named "a"] (withGroup "x") [named "b"] [requireName]).
  - repeat constructor. exists (named "a"). reflexivity.
  - reflexivity.
Defined.

(** C4, counterexample. The transform function [requireName] throws on the
    second of three entries. The failure is not added to the errors of that
    entry: the promise is rejected with it, although the group transformer
    failing on the same entry, without the transform function, resolves
    with the error in the list of that entry. *)
Lemma parseConnectionData_transform_throws_counterexample :
  parseConnectionData (fun c => c) sampleTree
    (IsArray [named "a"; withGroup "x"; named "b"]) [requireName]
    = Rejected (ThrownOther "Error: name is required") /\
  exists r,
    parseConnectionData (fun c => c) sampleTree
      (IsArray [named "a"; withGroup "x"; named "b"]) [] = Resolved r /\
    ParseResult.errors r = [[]; [ThrownParseError (invalidGroup "x")]; []].
Proof.
  split; [vm_compute; reflexivity|].
  eexists. split; vm_compute; reflexivity.
Qed.

Lemma addIndex_is_Some index grants a id :
  is_Some (grants !! id) \/ a = id -> is_Some (addIndex index grants a !! id).
Proof.
  intros H. unfold addIndex.
  destruct (decide (a = id)) as [->|Hne].
  - destruct (grants !! id); rewrite lookup_insert_eq; eauto.
  - destruct H as [H | H]; [|contradiction].
    destruct (grants !! a); now rewrite lookup_insert_ne by exact Hne.
Qed.

Lemma addIndex_lookup_ne index grants a id :
  a <> id -> addIndex index grants a !! id = grants !! id.
Proof.
  intros Hne. unfold addIndex.
  destruct (grants !! a); now rewrite lookup_insert_ne by exact Hne.
Qed.

(** What the [forEach] over the identifiers of a connection leaves in a
    grant map: the list of an identifier the connection names is the list
    it had, or the empty one, followed by the index, once for each
    occurrence of the identifier; every other entry is as it was. *)
Lemma addIndexForEach_lookup_In index ids : forall grants id,
  In id ids ->
  addIndexForEach index ids grants !! id
    = Some (default [] (grants !! id) ++ replicate (count_occ string_dec ids id) index).
Proof.
  intros grants id Hin.
  assert (Hsome : is_Some (addIndexForEach index ids grants !! id)).
  { unfold addIndexForEach. revert grants.
    assert (Hkeep : forall l g, is_Some (g !! id) ->
                      is_Some (fold_left (addIndex index) l g !! id)).
    { induction l as [|a l IH]; intros g Hg; simpl; [exact Hg|].
      apply IH, addIndex_is_Some. now left. }
    induction ids as [|a ids IH]; intros grants; simpl; [contradiction|].
    destruct Hin as [-> | Hin]; [|now apply IH].
    apply Hkeep, addIndex_is_Some. now right. }
  destruct Hsome as [l Hl].
  pose proof (addIndexForEach_lookup index ids grants id) as H.
  rewrite Hl in H. simpl in H. now rewrite Hl, H.
Qed.

Lemma addIndexForEach_lookup_notin index ids : forall grants id,
  ~ In id ids -> addIndexForEach index ids grants !! id = grants !! id.
Proof.
  unfold addIndexForEach.
  induction ids as [|a ids IH]; intros grants id Hnotin; simpl; [reflexivity|].
  rewrite IH by (intros H; apply Hnotin; now right).
  apply addIndex_lookup_ne. intros ->. apply Hnotin. now left.
Qed.

(** C5. For an entry the transform functions return on, the callback
    returns. Whether the group transformer returns or throws, the index of
    the entry is added to the users map for the users of the connection
    object the transform functions produced: the list of each of these
    users is the list it had, or the empty one, followed by the index, and
    the other lists are as they were; nothing is added when the object has
    no users. The same holds of the groups map and the user groups of the
    object. When the group transformer throws, the list of errors of the
    entry holds the thrown error and nothing else, the patch adds the
    connection made from the object as it was before the group transformer,
    and the error flag is set. *)
Theorem reducer_resolution_failure {Connection : Type}
    (newConnection : ImportConnection.t -> Connection) lk fs
    parseResult data index c :
  applyTransforms fs data = Return c ->
  exists r,
    reducer newConnection lk fs parseResult data index = Return r /\
    (forall id, In id (default [] (ImportConnection.users c)) ->
       ParseResult.users r !! id
         = Some (default [] (ParseResult.users parseResult !! id)
                 ++ replicate (count_occ string_dec
                                 (default [] (ImportConnection.users c)) id) index) /\
       In index (default [] (ParseResult.users r !! id))) /\
    (forall id, ~ In id (default [] (ImportConnection.users c)) ->
       ParseResult.users r !! id = ParseResult.users parseResult !! id) /\
    (forall id, In id (default [] (ImportConnection.groups c)) ->
       ParseResult.groups r !! id
         = Some (default [] (ParseResult.groups parseResult !! id)
                 ++ replicate (count_occ string_dec
                                 (default [] (ImportConnection.groups c)) id) index) /\
       In index (default [] (ParseResult.groups r !! id))) /\
    (forall id, ~ In id (default [] (ImportConnection.groups c)) ->
       ParseResult.groups r !! id = ParseResult.groups parseResult !! id) /\
    (forall e, groupTransformer lk c = Throw e ->
       ParseResult.errors r = ParseResult.errors parseResult ++ [[e]] /\
       ParseResult.patches r
         = ParseResult.patches parseResult
           ++ [{| op := "add"; path := "/"; value := newConnection c |}] /\
       ParseResult.hasErrors r = true).
Proof.
  intros Hc. rewrite (reducer_returns newConnection lk fs parseResult data index c Hc).
  eexists. split; [reflexivity|].
  assert (Hgrant : forall ids grants id, In id ids ->
            addIndexForEach index ids grants !! id
              = Some (default [] (grants !! id)
                      ++ replicate (count_occ string_dec ids id) index) /\
            In index (default [] (addIndexForEach index ids grants !! id))).
  { intros ids grants id Hin.
    rewrite (addIndexForEach_lookup_In index ids grants id Hin).
    split; [reflexivity|]. simpl. apply in_or_app. right.
    apply (count_occ_In string_dec) in Hin.
    destruct (count_occ string_dec ids id); [lia | now left]. }
  destruct (tryGroupTransformer_usersOf lk c) as [Hu Hg].
  unfold usersOf, groupsOf in Hu, Hg.
  unfold afterTransforms.
  destruct (tryGroupTransformer_cases lk c)
    as [(c' & Hc' & Ht & _) | (e & Hthrow & Ht)]; rewrite Ht in *; simpl in *.
  - rewrite Hu, Hg.
    split; [intros id; apply Hgrant|].
    split; [intros id; apply addIndexForEach_lookup_notin|].
    split; [intros id; apply Hgrant|].
    split; [intros id; apply addIndexForEach_lookup_notin|].
    intros e' He'. rewrite Hc' in He'. discriminate.
  - split; [intros id; apply Hgrant|].
    split; [intros id; apply addIndexForEach_lookup_notin|].
    split; [intros id; apply Hgrant|].
    split; [intros id; apply addIndexForEach_lookup_notin|].
    intros e' He'. rewrite Hthrow in He'. inversion He'; subst e'.
    repeat split.
Qed.

(** Witness of [reducer_resolution_failure]: the connection
    [unresolvedWithGrants] at index 3, the users map holding the list
    [[0]] for "alice" already. *)
Lemma reducer_resolution_failure_sample :
  exists r,
    reducer (fun c => c) sampleLookups []
      (ParseResult.mk [] {["alice" := [0]]} ∅ [] false) unresolvedWithGrants 3
      = Return r /\
    ParseResult.users r !! "alice" = Some [0; 3] /\
    ParseResult.users r !! "bob" = Some [3] /\
    ParseResult.users r !! "carol" = None /\
    ParseResult.groups r !! "admins" = Some [3] /\
    ParseResult.errors r = [[ThrownParseError (invalidGroup "Missing/Path")]] /\
    ParseResult.patches r
      = [{| op := "add"; path := "/"; value := unresolvedWithGrants |}] /\
    ParseResult.hasErrors r = true.
Proof.
  destruct (reducer_resolution_failure (fun c => c) sampleLookups []
              (ParseResult.mk [] {["alice" := [0]]} ∅ [] false)
              unresolvedWithGrants 3 unresolvedWithGrants eq_refl)
    as (r & Hr & Hu & Hu' & Hg & _ & He).
  exists r. split; [exact Hr|].
  split; [exact (proj1 (Hu "alice" ltac:(simpl; auto)))|].
  split; [exact (proj1 (Hu "bob" ltac:(simpl; auto)))|].
  split.
  { rewrite (Hu' "carol"); [reflexivity|].
    simpl. intros [H | [H | []]]; discriminate H. }
  split; [exact (proj1 (Hg "admins" ltac:(simpl; auto)))|].
  apply (He (ThrownParseError (invalidGroup "Missing/Path"))).
  vm_compute. reflexivity.
Defined.

(** C6. Whatever the transform functions and the tree, parsed data that is
    not an array is rejected with the error of key
    IMPORT.ERROR_ARRAY_REQUIRED and an empty array is rejected with the
    error of key IMPORT.ERROR_EMPTY_FILE; a rejected promise carries no
    result. *)
Theorem parseConnectionData_basic_checks {Connection : Type}
    (newConnection : ImportConnection.t -> Connection) rootGroup fs :
  (forall v, parseConnectionData newConnection rootGroup (NotArray v) fs
             = Rejected (ThrownParseError arrayRequired)) /\
  key arrayRequired = Some "IMPORT.ERROR_ARRAY_REQUIRED" /\
  parseConnectionData newConnection rootGroup (IsArray []) fs
    = Rejected (ThrownParseError emptyFile) /\
  key emptyFile = Some "IMPORT.ERROR_EMPTY_FILE".
Proof. repeat split. Qed.

(** C7, as amended. For a non-empty array of entries and transform
    functions that return on every entry, every identifier among the users
    of the connection object of entry [i] is a key of the users map of the
    result, and the index [i] occurs in its list as many times as the
    identifier occurs among the users of that connection object: once when
    it occurs once there. The same holds for the user groups and the groups
    map. *)
Theorem parseConnectionData_grants {Connection : Type}
    (newConnection : ImportConnection.t -> Connection) rootGroup entries
    (fs : list (ImportConnection.t -> ImportConnection.t)) :
  entries <> [] ->
  exists r,
    parseConnectionData newConnection rootGroup (IsArray entries) (map returning fs)
      = Resolved r /\
    forall i data, entries !! i = Some data ->
      (forall id, In id (usersOf (transformed fs data)) ->
         exists l, ParseResult.users r !! id = Some l /\
                   count_occ Nat.eq_dec l i
                     = count_occ string_dec (usersOf (transformed fs data)) id /\
                   1 <= count_occ Nat.eq_dec l i) /\
      (forall id, In id (groupsOf (transformed fs data)) ->
         exists l, ParseResult.groups r !! id = Some l /\
                   count_occ Nat.eq_dec l i
                     = count_occ string_dec (groupsOf (transformed fs data)) id /\
                   1 <= count_occ Nat.eq_dec l i).
Proof.
  intros Hne.
  pose proof (Forall2_transformed fs entries) as Hcs.
  destruct (parseConnectionData_resolves newConnection rootGroup _ _ _ Hne Hcs)
    as (r & Hr & Hred).
  destruct (reduce_returns newConnection (getGroupLookups rootGroup) _ _ _ Hcs
              0 ParseResult.new) as (r' & Hr' & _ & _ & Hu & Hg & _).
  rewrite Hred in Hr'. inversion Hr'; subst r'. simpl in Hu, Hg.
  exists r. split; [exact Hr|].
  intros i data Hi. rewrite Hu, Hg. split; intros id Hin.
  - apply grantsFrom_occurrences; [|exact Hin].
    now rewrite !list_lookup_fmap, Hi.
  - apply grantsFrom_occurrences; [|exact Hin].
    now rewrite !list_lookup_fmap, Hi.
Qed.

(** Witness of [parseConnectionData_grants]: the entries
    [{users: ["alice", "bob"]}] and [{users: ["alice"]}]. *)
Lemma parseConnectionData_grants_sample :
  exists r,
    parseConnectionData (fun c => c) sampleTree
      (IsArray [withUsers ["alice"; "bob"]; withUsers ["alice"]]) [] = Resolved r /\
    exists l, ParseResult.users r !! "alice" = Some l /\
              count_occ Nat.eq_dec l 1 = 1.
Proof.
  destruct (parseConnectionData_grants (fun c => c) sampleTree
              [withUsers ["alice"; "bob"]; withUsers ["alice"]] [])
    as (r & Hr & H); [discriminate|].
  exists r. split; [exact Hr|].
  destruct (proj1 (H 1 (withUsers ["alice"]) eq_refl) "alice") as (l & Hl & Hc & _);
    [left; reflexivity|].
  exists l. split; [exact Hl | exact Hc].
Defined.

(** C7, counterexample. The single entry [{users: ["alice", "alice"]}]:
    the list of "alice" in the users map is [[0; 0]], in which the index 0
    occurs twice. *)
Lemma parseConnectionData_grants_counterexample :
  exists r,
    parseConnectionData (fun c => c) sampleTree
      (IsArray [withUsers ["alice"; "alice"]]) [] = Resolved r /\
    ParseResult.users r !! "alice" = Some [0; 0] /\
    count_occ Nat.eq_dec [0; 0] 0 = 2.
Proof. eexists. repeat split; vm_compute; reflexivity. Qed.

(** * Further properties *)

(** ** The lookups of any tree *)

Lemma visit_identifierSet_elem l : forall st id,
  id ∈ identifierSet (fold_left visit l st) <->
  id ∈ identifierSet st \/ exists q n, (q, n) ∈ l /\ identifier n = id.
Proof.
  induction l as [|[p g] l IH]; intros st id; simpl.
  - split; [auto | intros [H | (q & n & Hin & _)]; [exact H|]].
    now apply elem_of_nil in Hin.
  - rewrite IH. simpl. rewrite elem_of_union, elem_of_singleton. split.
    + intros [[-> | H] | (q & n & Hin & Hid)].
      * right. exists p, g. split; [apply list_elem_of_here | reflexivity].
      * now left.
      * right. exists q, n. split; [now apply list_elem_of_further | exact Hid].
    + intros [H | (q & n & Hin & Hid)]; [left; now right|].
      apply elem_of_cons in Hin as [Heq | Hin].
      * inversion Heq; subst. left. now left.
      * right. eauto.
Qed.

Lemma visit_groupLookups_Some l : forall st p id,
  groupLookups (fold_left visit l st) !! p = Some id ->
  groupLookups st !! p = Some id \/ exists n, (p, n) ∈ l /\ identifier n = id.
Proof.
  induction l as [|[q g] l IH]; intros st p id H; simpl in *; [now left|].
  destruct (IH _ _ _ H) as [Hst | (n & Hin & Hid)].
  - simpl in Hst. destruct (decide (q = p)) as [->|Hne].
    + rewrite lookup_insert_eq in Hst. inversion Hst; subst.
      right. exists g. split; [apply list_elem_of_here | reflexivity].
    + rewrite lookup_insert_ne in Hst by exact Hne. now left.
  - right. exists n. split; [now apply list_elem_of_further | exact Hid].
Qed.

Lemma visit_groupLookups_key l : forall st p,
  is_Some (groupLookups (fold_left visit l st) !! p) <->
  is_Some (groupLookups st !! p) \/ p ∈ map fst l.
Proof.
  induction l as [|[q g] l IH]; intros st p; simpl.
  - split; [auto | intros [H|H]; [exact H | now apply elem_of_nil in H]].
  - rewrite IH. simpl. rewrite lookup_insert_is_Some, elem_of_cons. split.
    + intros [[-> | [_ H]] | H]; auto.
    + intros [H | [-> | H]]; auto.
      destruct (decide (q = p)) as [->|Hne]; auto.
Qed.

(** The last visit of a path decides what the path is mapped to. *)
Lemma visit_groupLookups_last before after p n st :
  p ∉ map fst after ->
  groupLookups (fold_left visit (before ++ (p, n) :: after) st) !! p
    = Some (identifier n).
Proof.
  intros Hp. rewrite fold_left_app. simpl.
  rewrite visit_groupLookups_other by exact Hp.
  apply lookup_insert_eq.
Qed.

(** X1. The identifier set built from a tree holds the identifiers of the
    groups of the tree and nothing else. *)
Theorem getGroupLookups_identifierSet rootGroup id :
  id ∈ identifierSet (getGroupLookups rootGroup) <->
  exists p n, (p, n) ∈ nodes rootGroup /\ identifier n = id.
Proof.
  rewrite getGroupLookups_visits, visit_identifierSet_elem. simpl. split.
  - intros [H | H]; [now apply elem_of_empty in H | exact H].
  - now right.
Qed.

(** X2. The path lookups built from a tree have an entry exactly for the
    canonical paths of the groups of the tree, and whatever identifier a
    path is mapped to is the identifier of a group with that canonical
    path. *)
Theorem getGroupLookups_sound rootGroup p :
  (is_Some (groupLookups (getGroupLookups rootGroup) !! p) <->
   p ∈ map fst (nodes rootGroup)) /\
  (forall id, groupLookups (getGroupLookups rootGroup) !! p = Some id ->
     exists n, (p, n) ∈ nodes rootGroup /\ identifier n = id).
Proof.
  rewrite getGroupLookups_visits. split.
  - rewrite visit_groupLookups_key. simpl. rewrite lookup_empty. split.
    + intros [[x Hx] | H]; [discriminate | exact H].
    + now right.
  - intros id H. apply visit_groupLookups_Some in H as [H | H]; [|exact H].
    simpl in H. rewrite lookup_empty in H. discriminate.
Qed.

(** Witness of [getGroupLookups_sound]: the path ROOT/sub/deep of
    [sampleTree]. *)
Lemma getGroupLookups_sound_sample :
  groupLookups (getGroupLookups sampleTree) !! "ROOT/sub/deep" = Some "g-42" /\
  exists n, ("ROOT/sub/deep", n) ∈ nodes sampleTree /\ identifier n = "g-42".
Proof.
  assert (H : groupLookups (getGroupLookups sampleTree) !! "ROOT/sub/deep" = Some "g-42")
    by (vm_compute; reflexivity).
  split; [exact H|].
  exact (proj2 (getGroupLookups_sound sampleTree "ROOT/sub/deep") "g-42" H).
Defined.

(** X3. When several groups of a tree have the same canonical path, the
    path is mapped to the identifier of the one visited last: the last one
    in the order of the tree. *)
Theorem getGroupLookups_last_wins rootGroup before after p n :
  nodes rootGroup = before ++ (p, n) :: after ->
  p ∉ map fst after ->
  groupLookups (getGroupLookups rootGroup) !! p = Some (identifier n).
Proof.
  intros Hnodes Hp. rewrite getGroupLookups_visits, Hnodes.
  now apply visit_groupLookups_last.
Qed.

(** Witness of [getGroupLookups_last_wins]: the two children of
    [twinTree] with the path ROOT/twin. *)
Lemma getGroupLookups_last_wins_sample :
  groupLookups (getGroupLookups twinTree) !! "ROOT/twin" = Some "g-2".
Proof.
  apply (getGroupLookups_last_wins twinTree
           [("ROOT", twinTree); ("ROOT/twin", mkConnectionGroup "g-1" "twin" [])]
           [] "ROOT/twin" (mkConnectionGroup "g-2" "twin" [])).
  - reflexivity.
  - apply not_elem_of_nil.
Defined.

(** X4. An identifier found through a path is in the identifier set. *)
Theorem getGroupLookups_range rootGroup p id :
  groupLookups (getGroupLookups rootGroup) !! p = Some id ->
  id ∈ identifierSet (getGroupLookups rootGroup).
Proof.
  rewrite getGroupLookups_visits. intros H.
  apply visit_identifierSet_elem. right.
  apply visit_groupLookups_Some in H as [H | (n & Hin & Hid)]; [|eauto].
  simpl in H. rewrite lookup_empty in H. discriminate.
Qed.

(** Witness of [getGroupLookups_range]: the path ROOT/East of
    [sampleTree]. *)
Lemma getGroupLookups_range_sample :
  "g-east" ∈ identifierSet (getGroupLookups sampleTree).
Proof.
  apply (getGroupLookups_range sampleTree "ROOT/East" "g-east").
  vm_compute. reflexivity.
Defined.

Lemma nodesFrom_path_length g : forall p q n,
  (q, n) ∈ nodesFrom p g -> String.length p <= String.length q.
Proof.
  induction g as [i nm cs IH] using ConnectionGroup_tree_ind.
  intros p q n Hin. simpl in Hin.
  apply elem_of_cons in Hin as [Heq | Hin]; [inversion Heq; lia|].
  apply list_elem_of_In, in_flat_map in Hin as (c & Hc & Hin).
  rewrite List.Forall_forall in IH.
  apply list_elem_of_In in Hin. apply (IH c Hc) in Hin.
  rewrite !string_length_app in Hin. lia.
Qed.

(** X5. Whatever the tree, the bare name of the root is mapped to the
    identifier of the root: no other group has the path of the root. *)
Theorem getGroupLookups_root rootGroup :
  groupLookups (getGroupLookups rootGroup) !! name rootGroup
    = Some (identifier rootGroup).
Proof.
  rewrite getGroupLookups_visits. unfold nodes.
  destruct rootGroup as [i nm cs]. simpl nodesFrom. simpl name. simpl identifier.
  apply (visit_groupLookups_last [] _ nm (mkConnectionGroup i nm cs)).
  intros Hin. apply list_elem_of_In, in_map_iff in Hin as ([q n] & Hq & Hin).
  simpl in Hq. subst q.
  apply in_flat_map in Hin as (c & _ & Hin).
  apply list_elem_of_In, nodesFrom_path_length in Hin.
  rewrite !string_length_app in Hin. simpl in Hin. lia.
Qed.

(** ** More on absolute group paths *)

Lemma startsWith_ROOT_inv s :
  startsWith s "ROOT" = true -> exists t, s = "ROOT" +:+ t.
Proof.
  unfold startsWith. intros H.
  destruct s as [|a [|b [|c [|d t]]]]; simpl in H; try discriminate;
    repeat match type of H with
           | (if ?x then _ else _) = true => destruct x; [subst | discriminate]
           end; try discriminate.
  now exists t.
Qed.

Lemma slice_0_m1_ROOT t :
  t <> "" -> slice_0_m1 ("ROOT" +:+ t) = "ROOT" +:+ slice_0_m1 t.
Proof.
  intros Ht. destruct t as [|c t]; [contradiction|].
  unfold slice_0_m1. cbn [String.length String.append].
  simpl. now rewrite Nat.sub_0_r.
Qed.

(** X6. The absolute path of any group string begins with the identifier
    of the root group. *)
Theorem absoluteGroupPath_startsWith_ROOT (original : string) :
  startsWith (absoluteGroupPath original) ROOT_GROUP_IDENTIFIER = true.
Proof.
  unfold absoluteGroupPath, ROOT_GROUP_IDENTIFIER.
  set (group := if startsWith original "/" then "ROOT" +:+ original
                else if negb (startsWith original "ROOT")
                     then "ROOT" +:+ "/" +:+ original else original).
  assert (Hgroup : startsWith group "ROOT" = true).
  { unfold group. destruct (startsWith original "/"); [apply startsWith_app|].
    destruct (startsWith original "ROOT") eqn:E; cbn [negb]; [exact E|].
    apply (startsWith_app "ROOT" ("/" +:+ original)). }
  destruct (endsWith group "/") eqn:Hend; [|exact Hgroup].
  destruct (startsWith_ROOT_inv group Hgroup) as [t Ht]. rewrite Ht in *.
  assert (t <> "") by (intros ->; discriminate Hend).
  rewrite slice_0_m1_ROOT by assumption. apply startsWith_app.
Qed.

(** X7. For any path below the root, given without a leading slash, without
    the root and without a trailing slash, a connection without a parent
    identifier is resolved to the identifier the lookups have for the path,
    whichever of the four spellings its group has: relative, with a leading
    slash, from the root, and from the root with a trailing slash. *)
Theorem groupTransformer_spellings_any lk connection (s id : string) :
  s <> "" -> startsWith s "/" = false -> startsWith s "ROOT" = false ->
  endsWith s "/" = false ->
  groupLookups lk !! ("ROOT/" +:+ s) = Some id -> id <> "" ->
  truthy (ImportConnection.parentIdentifier connection) = None ->
  Forall (fun g =>
            exists r, groupTransformer lk (withGroupOf connection g) = Return r /\
                      ImportConnection.parentIdentifier r = Some id)
         [s; "/" +:+ s; "ROOT/" +:+ s; "ROOT/" +:+ s +:+ "/"].
Proof.
  intros Hs Hslash Hroot Hend Hid Hne Hp.
  eapply Forall_impl; [exact (absoluteGroupPath_relative s Hs Hslash Hroot Hend)|].
  intros g Hg. simpl in Hg.
  destruct (String.eqb_spec g "") as [->|Hgne]; [discriminate Hg|].
  exists (withParentIdentifier (withGroupOf connection g) id). split; [|reflexivity].
  rewrite (groupTransformer_lookup lk (withGroupOf connection g) g eq_refl Hgne Hp).
  now rewrite Hg, Hid, (truthy_nonempty id Hne).
Qed.

(** Witness of [groupTransformer_spellings_any]: the path sub/deep of
    [sampleTree]. *)
Lemma groupTransformer_spellings_any_sample :
  Forall (fun g =>
            exists r, groupTransformer sampleLookups
                        (withGroupOf ImportConnection.empty g) = Return r /\
                      ImportConnection.parentIdentifier r = Some "g-42")
         ["sub/deep"; "/sub/deep"; "ROOT/sub/deep"; "ROOT/sub/deep/"].
Proof.
  apply (groupTransformer_spellings_any sampleLookups ImportConnection.empty
           "sub/deep" "g-42");
    first [discriminate | vm_compute; reflexivity].
Defined.

(** ** More on the group transformer *)

(** The group transformer, case by case. *)
Lemma groupTransformer_cases lk connection :
  (truthy (ImportConnection.group connection) = None /\
   ((truthy (ImportConnection.parentIdentifier connection) = None /\
     groupTransformer lk connection = Return connection) \/
    (exists p, truthy (ImportConnection.parentIdentifier connection) = Some p /\
               (p ∈ identifierSet lk \/ p ∈ objectPrototypeNames) /\
               groupTransformer lk connection = Return connection) \/
    (exists p, truthy (ImportConnection.parentIdentifier connection) = Some p /\
               (p ∉ identifierSet lk) /\ (p ∉ objectPrototypeNames) /\
               groupTransformer lk connection
                 = Throw (ThrownParseError (invalidGroupIdentifier p))))) \/
  (exists g, truthy (ImportConnection.group connection) = Some g /\
     ((exists p, truthy (ImportConnection.parentIdentifier connection) = Some p /\
                 groupTransformer lk connection
                   = Throw (ThrownParseError ambiguousParentGroup)) \/
      (truthy (ImportConnection.parentIdentifier connection) = None /\
       exists id, groupLookups lk !! absoluteGroupPath g = Some id /\ id <> "" /\
                  groupTransformer lk connection
                    = Return (withParentIdentifier connection id)) \/
      (truthy (ImportConnection.parentIdentifier connection) = None /\
       truthy (groupLookups lk !! absoluteGroupPath g) = None /\
       groupTransformer lk connection = Throw (ThrownParseError (invalidGroup g))))).
Proof.
  unfold groupTransformer.
  destruct (truthy (ImportConnection.group connection)) as [g|]; [right | left].
  - exists g. split; [reflexivity|].
    destruct (truthy (ImportConnection.parentIdentifier connection)) as [p|];
      [left; eauto | right].
    destruct (truthy (groupLookups lk !! absoluteGroupPath g)) as [id|] eqn:E;
      [left | right; auto].
    apply truthy_Some in E as [E Hne]. split; [reflexivity|]. eauto.
  - split; [reflexivity|].
    destruct (truthy (ImportConnection.parentIdentifier connection)) as [p|];
      [right | left; auto].
    destruct (identifierSetHas lk p) eqn:E.
    + left. exists p. apply identifierSetHas_true in E. auto.
    + right. exists p. apply identifierSetHas_false in E as [? ?]. auto.
Qed.

(** X9. When the group transformer returns, against the lookups of a tree,
    the connection it returns has the group, the users, the user groups and
    the other properties of the given one, and its parent identifier, when
    it is a non-empty string, is the identifier of a group of the tree or a
    name inherited from [Object.prototype]; it is the identifier of a
    group of the tree when the given connection has a group. *)
Theorem groupTransformer_returns rootGroup connection r :
  groupTransformer (getGroupLookups rootGroup) connection = Return r ->
  ImportConnection.group r = ImportConnection.group connection /\
  ImportConnection.users r = ImportConnection.users connection /\
  ImportConnection.groups r = ImportConnection.groups connection /\
  ImportConnection.others r = ImportConnection.others connection /\
  (forall p, truthy (ImportConnection.parentIdentifier r) = Some p ->
     (exists q n, (q, n) ∈ nodes rootGroup /\ identifier n = p) \/
     (truthy (ImportConnection.group connection) = None /\
      p ∈ objectPrototypeNames)).
Proof.
  intros H.
  assert (Hset : forall p, p ∈ identifierSet (getGroupLookups rootGroup) ->
                   exists q n, (q, n) ∈ nodes rootGroup /\ identifier n = p).
  { intros p Hp. rewrite getGroupLookups_visits in Hp.
    apply visit_identifierSet_elem in Hp as [Hp | Hp]; [|exact Hp].
    now apply elem_of_empty in Hp. }
  destruct (groupTransformer_cases (getGroupLookups rootGroup) connection)
    as [(Hg & [(Hp & Hr) | [(p & Hp & Hin & Hr) | (p & Hp & Hnotin & Hni & Hr)]])
       | (g & Hg & [(p & Hp & Hr) | [(Hp & id & Hid & Hne & Hr) | (Hp & Hl & Hr)]])];
    rewrite Hr in H; inversion H; subst; repeat (split; [reflexivity|]).
  - intros p Hp'. rewrite Hp in Hp'. discriminate.
  - intros p' Hp'. rewrite Hp in Hp'. inversion Hp'; subst.
    destruct Hin as [Hin | Hin]; [left; now apply Hset | right; now split].
  - intros p Hp'. unfold withParentIdentifier in Hp'.
    cbn [ImportConnection.parentIdentifier] in Hp'.
    apply truthy_Some in Hp' as [[= <-] _]. left.
    rewrite getGroupLookups_visits in Hid.
    apply visit_groupLookups_Some in Hid as [Hid | (n & Hin & Hn)]; [|eauto].
    simpl in Hid. rewrite lookup_empty in Hid. discriminate.
Qed.

(** Witness of [groupTransformer_returns]: [{group: "ROOT/East"}] and
    [sampleTree]. *)
Lemma groupTransformer_returns_sample :
  (exists q n, (q, n) ∈ nodes sampleTree /\ identifier n = "g-east") \/
  (truthy (ImportConnection.group (withGroup "ROOT/East")) = None /\
   "g-east" ∈ objectPrototypeNames).
Proof.
  apply (proj2 (proj2 (proj2 (proj2
           (groupTransformer_returns sampleTree (withGroup "ROOT/East")
              (withParentIdentifier (withGroup "ROOT/East") "g-east")
              ltac:(vm_compute; reflexivity)))))).
  reflexivity.
Defined.

(** X10. The group transformer cannot be run again on what it returned for
    a connection with a group: the returned connection has both its group
    and a parent identifier, and the second run throws the ambiguous-parent
    error. What it returned for a connection without a group is returned
    again as it is. *)
Theorem groupTransformer_again lk connection r :
  groupTransformer lk connection = Return r ->
  (forall g, truthy (ImportConnection.group connection) = Some g ->
     groupTransformer lk r = Throw (ThrownParseError ambiguousParentGroup)) /\
  (truthy (ImportConnection.group connection) = None ->
     r = connection /\ groupTransformer lk r = Return r).
Proof.
  intros H.
  destruct (groupTransformer_cases lk connection)
    as [(Hg & [(Hp & Hr) | [(p & Hp & Hin & Hr) | (p & Hp & Hnotin & Hni & Hr)]])
       | (g & Hg & [(p & Hp & Hr) | [(Hp & id & Hid & Hne & Hr) | (Hp & Hl & Hr)]])];
    rewrite Hr in H; inversion H; subst; split;
    try (intros g' Hg'; rewrite Hg in Hg'; discriminate);
    try (intros Hg'; rewrite Hg in Hg'; discriminate).
  - intros _. split; [reflexivity | exact Hr].
  - intros _. split; [reflexivity | exact Hr].
  - intros g' _. unfold groupTransformer, withParentIdentifier.
    cbn [ImportConnection.group ImportConnection.parentIdentifier].
    now rewrite Hg, (truthy_nonempty id Hne).
Qed.

(** Witness of [groupTransformer_again]: [{group: "sub"}]. *)
Lemma groupTransformer_again_sample :
  groupTransformer sampleLookups (withParentIdentifier (withGroup "sub") "g-sub")
    = Throw (ThrownParseError ambiguousParentGroup).
Proof.
  apply (proj1 (groupTransformer_again sampleLookups (withGroup "sub")
                  (withParentIdentifier (withGroup "sub") "g-sub")
                  ltac:(vm_compute; reflexivity)) "sub").
  reflexivity.
Defined.

(** ** More on the reduction *)

Section ReduceInversion.
Context {Connection : Type}.
Variable newConnection : ImportConnection.t -> Connection.
Variable lk : Lookups.
Variable fs : list Transform.

Lemma reduce_Return_inv entries : forall index parseResult r,
  reduce newConnection lk fs entries index parseResult = Return r ->
  exists cs, Forall2 (fun data c => applyTransforms fs data = Return c) entries cs.
Proof.
  induction entries as [|data entries IH]; intros index parseResult r H.
  - exists []. constructor.
  - simpl in H. unfold reducer in H.
    destruct (applyTransforms fs data) as [c|e] eqn:E; [|discriminate].
    destruct (IH _ _ _ H) as [cs Hcs]. exists (c :: cs). now constructor.
Qed.

Lemma reduce_Throw_inv entries : forall index parseResult e,
  reduce newConnection lk fs entries index parseResult = Throw e ->
  exists data, data ∈ entries /\ applyTransforms fs data = Throw e.
Proof.
  induction entries as [|data entries IH]; intros index parseResult e H;
    [discriminate|].
  simpl in H. unfold reducer in H.
  destruct (applyTransforms fs data) as [c|e'] eqn:E.
  - destruct (IH _ _ _ H) as (data' & Hin & Hd).
    exists data'. split; [now apply list_elem_of_further | exact Hd].
  - inversion H; subst. exists data. split; [apply list_elem_of_here | exact E].
Qed.
End ReduceInversion.

(** A resolved promise comes from a non-empty array on whose entries the
    transform functions all return, and carries the result of the
    reduction. *)
Lemma parseConnectionData_Resolved_inv {Connection : Type}
    (newConnection : ImportConnection.t -> Connection) rootGroup d fs r :
  parseConnectionData newConnection rootGroup d fs = Resolved r ->
  exists entries cs,
    d = IsArray entries /\ entries <> [] /\
    Forall2 (fun data c => applyTransforms fs data = Return c) entries cs /\
    reduce newConnection (getGroupLookups rootGroup) fs entries 0 ParseResult.new
      = Return r.
Proof.
  unfold parseConnectionData, performBasicChecks. intros H.
  destruct d as [v | entries]; [discriminate|].
  destruct entries as [|data entries]; [discriminate|].
  change (length (data :: entries) =? 0)%nat with false in H. cbv iota in H.
  destruct (reduce newConnection (getGroupLookups rootGroup) fs (data :: entries)
              0 ParseResult.new) as [r'|e] eqn:E; [|discriminate].
  inversion H; subst r'.
  destruct (reduce_Return_inv _ _ _ _ _ _ _ E) as [cs Hcs].
  exists (data :: entries), cs.
  split; [reflexivity|]. split; [discriminate|]. split; [exact Hcs | exact E].
Qed.

(** X12. In a result of [parseConnectionData], the error flag is set
    exactly when the list of errors of some entry is not empty. *)
Theorem parseConnectionData_hasErrors {Connection : Type}
    (newConnection : ImportConnection.t -> Connection) rootGroup d fs r :
  parseConnectionData newConnection rootGroup d fs = Resolved r ->
  (ParseResult.hasErrors r = true <->
   exists i es, ParseResult.errors r !! i = Some es /\ es <> []).
Proof.
  intros H.
  destruct (parseConnectionData_Resolved_inv _ _ _ _ _ H)
    as (entries & cs & _ & _ & Hcs & Hred).
  destruct (reduce_returns newConnection (getGroupLookups rootGroup) fs _ _ Hcs
              0 ParseResult.new) as (r' & Hr' & _ & He & _ & _ & Hh).
  rewrite Hred in Hr'. inversion Hr'; subst r'. simpl in He, Hh.
  rewrite Hh, He, existsb_exists. split.
  - intros (c & Hin & Hc).
    apply list_elem_of_In, list_elem_of_lookup in Hin as [i Hi].
    exists i, (tryGroupTransformer (getGroupLookups rootGroup) c).2.
    rewrite list_lookup_fmap, Hi. split; [reflexivity|].
    intros E. rewrite E in Hc. discriminate.
  - intros (i & es & Hi & Hne).
    rewrite list_lookup_fmap in Hi.
    destruct (cs !! i) as [c|] eqn:E; [|discriminate].
    inversion Hi; subst es. exists c. split.
    + apply list_elem_of_In. eapply list_elem_of_lookup_2. exact E.
    + destruct (tryGroupTransformer (getGroupLookups rootGroup) c).2;
        [contradiction | reflexivity].
Qed.

(** Witness of [parseConnectionData_hasErrors]: the entries
    [{group: "ROOT/East"}] and [{group: "Nonexistent", parentIdentifier:
    "g-42"}]. *)
Lemma parseConnectionData_hasErrors_sample :
  exists r,
    parseConnectionData (fun c => c) sampleTree
      (IsArray [withGroup "ROOT/East"; withBoth "Nonexistent" "g-42"]) [] = Resolved r /\
    (ParseResult.hasErrors r = true <->
     exists i es, ParseResult.errors r !! i = Some es /\ es <> []).
Proof.
  eexists. split; [vm_compute; reflexivity|].
  apply (parseConnectionData_hasErrors (fun c => c) sampleTree
           (IsArray [withGroup "ROOT/East"; withBoth "Nonexistent" "g-42"]) []).
  vm_compute. reflexivity.
Defined.

(** ** More on the grant maps *)

Lemma addIndex_nonempty index grants a :
  (forall id l, grants !! id = Some l -> l <> []) ->
  forall id l, addIndex index grants a !! id = Some l -> l <> [].
Proof.
  intros Hm id l. unfold addIndex.
  destruct (grants !! a) as [l0|] eqn:E;
    (destruct (decide (a = id)) as [->|Hne];
     [rewrite lookup_insert_eq; intros [= <-] | rewrite lookup_insert_ne by exact Hne; apply Hm]).
  - now destruct l0.
  - discriminate.
Qed.

Lemma addIndexForEach_nonempty index ids : forall grants,
  (forall id l, grants !! id = Some l -> l <> []) ->
  forall id l, addIndexForEach index ids grants !! id = Some l -> l <> [].
Proof.
  unfold addIndexForEach.
  induction ids as [|a ids IH]; intros grants Hm; simpl; [exact Hm|].
  apply IH. now apply addIndex_nonempty.
Qed.

Lemma grantsFrom_nonempty ls : forall index grants,
  (forall id l, grants !! id = Some l -> l <> []) ->
  forall id l, grantsFrom index ls grants !! id = Some l -> l <> [].
Proof.
  induction ls as [|ids ls IH]; intros index grants Hm; simpl; [exact Hm|].
  apply IH. now apply addIndexForEach_nonempty.
Qed.

Lemma indicesOf_In id ls : forall index i,
  In i (indicesOf id index ls) ->
  index <= i /\ exists ids, ls !! (i - index) = Some ids /\ In id ids.
Proof.
  induction ls as [|ids ls IH]; intros index i Hin; simpl in Hin; [contradiction|].
  apply in_app_or in Hin as [Hin | Hin].
  - assert (Hc : count_occ string_dec ids id <> 0)
      by (intros E; rewrite E in Hin; contradiction).
    apply list_elem_of_In, elem_of_replicate in Hin as [-> _].
    split; [lia|]. rewrite Nat.sub_diag. exists ids. split; [reflexivity|].
    apply (count_occ_In string_dec). lia.
  - apply IH in Hin as (Hle & ids' & Hl & Hid). split; [lia|].
    exists ids'. split; [|exact Hid].
    replace (i - index) with (S (i - S index)) by lia. exact Hl.
Qed.

Lemma indicesOf_sorted id ls : forall index,
  StronglySorted le (indicesOf id index ls).
Proof.
  induction ls as [|ids ls IH]; intros index; simpl; [constructor|].
  induction (count_occ string_dec ids id) as [|n IHn]; simpl; [apply IH|].
  constructor; [exact IHn|].
  apply List.Forall_forall. intros i Hin.
  apply in_app_or in Hin as [Hin | Hin].
  - apply list_elem_of_In, elem_of_replicate in Hin as [-> _]. lia.
  - apply indicesOf_In in Hin. lia.
Qed.

Lemma grantsFrom_within ls : grantsWithin ls (grantsFrom 0 ls ∅).
Proof.
  intros id l Hl.
  pose proof (grantsFrom_lookup ls 0 ∅ id) as H.
  rewrite Hl, lookup_empty in H. simpl in H. subst l.
  split; [|split].
  - apply (grantsFrom_nonempty ls 0 ∅) with (id := id); [|exact Hl].
    intros id' l'. rewrite lookup_empty. discriminate.
  - apply indicesOf_sorted.
  - intros i Hin. apply indicesOf_In in Hin as (_ & ids & Hi & Hid).
    rewrite Nat.sub_0_r in Hi. eauto.
Qed.

(** X14. In a result of [parseConnectionData], every list of the users map
    is non-empty and in ascending order, and an index in the list of an
    identifier is the index of an entry whose connection object names the
    identifier among its users; the same holds of the groups map and the
    user groups. *)
Theorem parseConnectionData_grants_within {Connection : Type}
    (newConnection : ImportConnection.t -> Connection) rootGroup d fs r :
  parseConnectionData newConnection rootGroup d fs = Resolved r ->
  exists entries cs,
    d = IsArray entries /\
    Forall2 (fun data c => applyTransforms fs data = Return c) entries cs /\
    grantsWithin (map usersOf cs) (ParseResult.users r) /\
    grantsWithin (map groupsOf cs) (ParseResult.groups r).
Proof.
  intros H.
  destruct (parseConnectionData_Resolved_inv _ _ _ _ _ H)
    as (entries & cs & Hd & _ & Hcs & Hred).
  destruct (reduce_returns newConnection (getGroupLookups rootGroup) fs _ _ Hcs
              0 ParseResult.new) as (r' & Hr' & _ & _ & Hu & Hg & _).
  rewrite Hred in Hr'. inversion Hr'; subst r'. simpl in Hu, Hg.
  exists entries, cs. rewrite Hu, Hg.
  split; [exact Hd|]. split; [exact Hcs|]. split; apply grantsFrom_within.
Qed.

(** Witness of [parseConnectionData_grants_within]: the entries
    [{users: ["alice", "bob"]}] and [{users: ["alice"]}]. *)
Lemma parseConnectionData_grants_within_sample :
  exists r entries cs,
    parseConnectionData (fun c => c) sampleTree
      (IsArray [withUsers ["alice"; "bob"]; withUsers ["alice"]]) [] = Resolved r /\
    IsArray [withUsers ["alice"; "bob"]; withUsers ["alice"]] = IsArray entries /\
    Forall2 (fun data c => applyTransforms [] data = Return c) entries cs /\
    grantsWithin (map usersOf cs) (ParseResult.users r) /\
    grantsWithin (map groupsOf cs) (ParseResult.groups r).
Proof.
  eexists.
  assert (H : parseConnectionData (fun c : ImportConnection.t => c) sampleTree
                (IsArray [withUsers ["alice"; "bob"]; withUsers ["alice"]]) []
              = Resolved _) by (vm_compute; reflexivity).
  destruct (parseConnectionData_grants_within _ _ _ _ _ H) as (entries & cs & Hrest).
  exists entries, cs. split; [exact H | exact Hrest].
Defined.

(** ** The part of the tree in a result *)

Lemma afterTransforms_grants {Connection : Type}
    (newConnection : ImportConnection.t -> Connection) lk parseResult c index :
  ParseResult.users (afterTransforms newConnection lk parseResult c index)
    = addIndexForEach index (usersOf c) (ParseResult.users parseResult) /\
  ParseResult.groups (afterTransforms newConnection lk parseResult c index)
    = addIndexForEach index (groupsOf c) (ParseResult.groups parseResult).
Proof.
  destruct (tryGroupTransformer_usersOf lk c) as [<- <-].
  unfold afterTransforms, usersOf, groupsOf.
  destruct (tryGroupTransformer lk c) as [c' es]. split; reflexivity.
Qed.

Lemma reduce_two_lookups {Connection : Type}
    (newConnection : ImportConnection.t -> Connection) lk1 lk2 fs entries :
  forall index pr1 pr2,
    ParseResult.users pr1 = ParseResult.users pr2 ->
    ParseResult.groups pr1 = ParseResult.groups pr2 ->
    match reduce newConnection lk1 fs entries index pr1,
          reduce newConnection lk2 fs entries index pr2 with
    | Return r1, Return r2 =>
        ParseResult.users r1 = ParseResult.users r2 /\
        ParseResult.groups r1 = ParseResult.groups r2
    | Throw e1, Throw e2 => e1 = e2
    | _, _ => False
    end.
Proof.
  induction entries as [|data entries IH]; intros index pr1 pr2 Hu Hg; simpl.
  - now split.
  - unfold reducer. destruct (applyTransforms fs data) as [c|e]; [|reflexivity].
    apply IH.
    + rewrite (proj1 (afterTransforms_grants newConnection lk1 pr1 c index)).
      rewrite (proj1 (afterTransforms_grants newConnection lk2 pr2 c index)).
      now rewrite Hu.
    + rewrite (proj2 (afterTransforms_grants newConnection lk1 pr1 c index)).
      rewrite (proj2 (afterTransforms_grants newConnection lk2 pr2 c index)).
      now rewrite Hg.
Qed.

(** X15. The tree has no part in whether the promise of
    [parseConnectionData] is rejected, nor in the reason, nor in the grant
    maps of the result: for two trees, the promise is rejected for both
    with the same reason, or resolved for both with the same users map and
    the same groups map. *)
Theorem parseConnectionData_two_trees {Connection : Type}
    (newConnection : ImportConnection.t -> Connection) root1 root2 d fs :
  match parseConnectionData newConnection root1 d fs,
        parseConnectionData newConnection root2 d fs with
  | Resolved r1, Resolved r2 =>
      ParseResult.users r1 = ParseResult.users r2 /\
      ParseResult.groups r1 = ParseResult.groups r2
  | Rejected reason1, Rejected reason2 => reason1 = reason2
  | _, _ => False
  end.
Proof.
  unfold parseConnectionData.
  destruct (performBasicChecks d); [reflexivity|].
  destruct d as [v | entries]; [reflexivity|].
  pose proof (reduce_two_lookups newConnection (getGroupLookups root1)
                (getGroupLookups root2) fs entries 0 ParseResult.new ParseResult.new
                eq_refl eq_refl) as H.
  destruct (reduce newConnection (getGroupLookups root1) fs entries 0 ParseResult.new),
           (reduce newConnection (getGroupLookups root2) fs entries 0 ParseResult.new);
    exact H.
Qed.

(** ** The entry points for YAML and JSON *)

Lemma Forall2_no_transforms entries :
  Forall2 (fun data c => applyTransforms [] data = Return c) entries entries.
Proof. induction entries; constructor; [reflexivity | assumption]. Qed.

(** Without transform functions, the promise is rejected by the basic
    checks only, and resolved for every non-empty array. *)
Lemma parseConnectionData_no_transforms {Connection : Type}
    (newConnection : ImportConnection.t -> Connection) rootGroup d :
  (forall reason,
     parseConnectionData newConnection rootGroup d [] = Rejected reason ->
     (exists v, d = NotArray v /\ reason = ThrownParseError arrayRequired) \/
     (d = IsArray [] /\ reason = ThrownParseError emptyFile)) /\
  (forall entries, d = IsArray entries -> entries <> [] ->
     exists r, parseConnectionData newConnection rootGroup d [] = Resolved r /\
               length (ParseResult.patches r) = length entries /\
               length (ParseResult.errors r) = length entries).
Proof.
  split.
  - intros reason H.
    destruct d as [v | [|data entries]];
      [left; inversion H; eauto | right; inversion H; auto |].
    exfalso.
    destruct (parseConnectionData_resolves newConnection rootGroup
                (data :: entries) [] _ ltac:(discriminate)
                (Forall2_no_transforms _)) as (r & Hr & _).
    rewrite Hr in H. discriminate.
  - intros entries -> Hne.
    destruct (parseConnectionData_resolves newConnection rootGroup entries [] _ Hne
                (Forall2_no_transforms _)) as (r & Hr & Hred).
    destruct (reduce_returns newConnection (getGroupLookups rootGroup) [] _ _
                (Forall2_no_transforms entries) 0 ParseResult.new)
      as (r' & Hr' & Hp & He & _).
    rewrite Hred in Hr'. inversion Hr'; subst r'.
    exists r. rewrite Hp, He. simpl. now rewrite !length_map.
Qed.

(** X16. What [parseYAML] makes of each outcome of the parser. When the
    parser throws, the promise is rejected with a [ParseError] that has the
    message of the parser and no key. When the document is not an array, it
    is rejected with the array-required error, and when it is the empty
    array, with the empty-file error. When it is a non-empty array of
    connection objects, the promise resolves: the result has, for each
    entry and in the order of the entries, the patch and the list of errors
    the [try] block around the group transformer leaves for that entry,
    an error of the group transformer rejecting nothing. *)
Theorem parseYAML_outcome {Connection : Type}
    (newConnection : ImportConnection.t -> Connection) rootGroup
    (parseYAMLData : string -> ParserOutcome ParsedData) yamlData :
  (forall m, parseYAMLData yamlData = ParserThrows m ->
     parseYAML newConnection rootGroup parseYAMLData yamlData
       = Rejected (ThrownParseError (messageOnly m)) /\
     message (messageOnly m) = m /\ key (messageOnly m) = None) /\
  (forall v, parseYAMLData yamlData = Parsed (NotArray v) ->
     parseYAML newConnection rootGroup parseYAMLData yamlData
       = Rejected (ThrownParseError arrayRequired)) /\
  (parseYAMLData yamlData = Parsed (IsArray []) ->
     parseYAML newConnection rootGroup parseYAMLData yamlData
       = Rejected (ThrownParseError emptyFile)) /\
  (forall entries, parseYAMLData yamlData = Parsed (IsArray entries) ->
     entries <> [] ->
     exists r,
       parseYAML newConnection rootGroup parseYAMLData yamlData = Resolved r /\
       ParseResult.patches r
         = map (fun data =>
                  addPatch newConnection
                    (tryGroupTransformer (getGroupLookups rootGroup) data).1)
               entries /\
       ParseResult.errors r
         = map (fun data => (tryGroupTransformer (getGroupLookups rootGroup) data).2)
               entries).
Proof.
  unfold parseYAML.
  split; [intros m ->; repeat split|].
  split; [intros v ->; reflexivity|].
  split; [intros ->; reflexivity|].
  intros entries -> Hne.
  destruct (parseConnectionData_resolves newConnection rootGroup entries [] _ Hne
              (Forall2_no_transforms _)) as (r & Hr & Hred).
  destruct (reduce_returns newConnection (getGroupLookups rootGroup) [] _ _
              (Forall2_no_transforms entries) 0 ParseResult.new)
    as (r' & Hr' & Hp & He & _).
  rewrite Hred in Hr'. inversion Hr'; subst r'.
  exists r. split; [exact Hr|]. split; [exact Hp | exact He].
Qed.

(** Witness of [parseYAML_outcome]: a parser that yields the array of
    [{group: "ROOT/East"}] and [unresolvedWithGrants]. *)
Lemma parseYAML_outcome_sample :
  exists r,
    parseYAML (fun c => c) sampleTree
      (fun _ => Parsed (IsArray [withGroup "ROOT/East"; unresolvedWithGrants])) "-"
      = Resolved r /\
    ParseResult.errors r = [[]; [ThrownParseError (invalidGroup "Missing/Path")]].
Proof.
  destruct (proj2 (proj2 (proj2
              (parseYAML_outcome (fun c => c) sampleTree
                 (fun _ => Parsed (IsArray [withGroup "ROOT/East"; unresolvedWithGrants]))
                 "-"))) [withGroup "ROOT/East"; unresolvedWithGrants]
              eq_refl ltac:(discriminate)) as (r & Hr & _ & He).
  exists r. split; [exact Hr|]. rewrite He. vm_compute. reflexivity.
Defined.

(** X17. What [parseJSON] makes of each outcome of the parser. When the
    parser throws, the promise is rejected with a [ParseError] that has the
    message of the parser and no key. When the document is not an array, it
    is rejected with the array-required error, and when it is the empty
    array, with the empty-file error. When it is a non-empty array of
    connection objects, the promise resolves: the result has, for each
    entry and in the order of the entries, the patch and the list of errors
    the [try] block around the group transformer leaves for that entry,
    an error of the group transformer rejecting nothing. *)
Theorem parseJSON_outcome {Connection : Type}
    (newConnection : ImportConnection.t -> Connection) rootGroup
    (JSON_parse : string -> ParserOutcome ParsedData) jsonData :
  (forall m, JSON_parse jsonData = ParserThrows m ->
     parseJSON newConnection rootGroup JSON_parse jsonData
       = Rejected (ThrownParseError (messageOnly m)) /\
     message (messageOnly m) = m /\ key (messageOnly m) = None) /\
  (forall v, JSON_parse jsonData = Parsed (NotArray v) ->
     parseJSON newConnection rootGroup JSON_parse jsonData
       = Rejected (ThrownParseError arrayRequired)) /\
  (JSON_parse jsonData = Parsed (IsArray []) ->
     parseJSON newConnection rootGroup JSON_parse jsonData
       = Rejected (ThrownParseError emptyFile)) /\
  (forall entries, JSON_parse jsonData = Parsed (IsArray entries) ->
     entries <> [] ->
     exists r,
       parseJSON newConnection rootGroup JSON_parse jsonData = Resolved r /\
       ParseResult.patches r
         = map (fun data =>
                  addPatch newConnection
                    (tryGroupTransformer (getGroupLookups rootGroup) data).1)
               entries /\
       ParseResult.errors r
         = map (fun data => (tryGroupTransformer (getGroupLookups rootGroup) data).2)
               entries).
Proof.
  unfold parseJSON.
  split; [intros m ->; repeat split|].
  split; [intros v ->; reflexivity|].
  split; [intros ->; reflexivity|].
  intros entries -> Hne.
  destruct (parseConnectionData_resolves newConnection rootGroup entries [] _ Hne
              (Forall2_no_transforms _)) as (r & Hr & Hred).
  destruct (reduce_returns newConnection (getGroupLookups rootGroup) [] _ _
              (Forall2_no_transforms entries) 0 ParseResult.new)
    as (r' & Hr' & Hp & He & _).
  rewrite Hred in Hr'. inversion Hr'; subst r'.
  exists r. split; [exact Hr|]. split; [exact Hp | exact He].
Qed.

(** Witness of [parseJSON_outcome]: a parser that yields the array of
    [{group: "ROOT/East"}] and [unresolvedWithGrants]. *)
Lemma parseJSON_outcome_sample :
  exists r,
    parseJSON (fun c => c) sampleTree
      (fun _ => Parsed (IsArray [withGroup "ROOT/East"; unresolvedWithGrants])) "-"
      = Resolved r /\
    ParseResult.errors r = [[]; [ThrownParseError (invalidGroup "Missing/Path")]].
Proof.
  destruct (proj2 (proj2 (proj2
              (parseJSON_outcome (fun c => c) sampleTree
                 (fun _ => Parsed (IsArray [withGroup "ROOT/East"; unresolvedWithGrants]))
                 "-"))) [withGroup "ROOT/East"; unresolvedWithGrants]
              eq_refl ltac:(discriminate)) as (r & Hr & _ & He).
  exists r. split; [exact Hr|]. rewrite He. vm_compute. reflexivity.
Defined.

(** ** The entry point for CSV *)

Section Rows.
Context {Raw Connection : Type}.
Variable newConnection : ImportConnection.t -> Connection.
Variable lk : Lookups.
Variable rowTransformer : Raw -> Completion ImportConnection.t.

(** On rows the transform function returns on, the reduction is the one of
    the connection objects it returns, without transform functions. *)
Lemma reduceRows_returns rows cs :
  Forall2 (fun row c => rowTransformer row = Return c) rows cs ->
  forall index parseResult,
    reduceRows newConnection lk rowTransformer rows index parseResult
      = reduce newConnection lk [] cs index parseResult.
Proof.
  induction 1 as [|row c rows cs Hc _ IH]; intros index parseResult; simpl;
    [reflexivity|].
  unfold reducerRows. rewrite Hc. apply IH.
Qed.

End Rows.

(** For entries that are connection objects, the definitions for rows are
    [parseConnectionData] with one transform function. *)
Lemma parseConnectionDataRows_objects {Connection : Type}
    (newConnection : ImportConnection.t -> Connection) rootGroup entries
    (transform : Transform) :
  parseConnectionDataRows newConnection rootGroup entries transform
    = parseConnectionData newConnection rootGroup (IsArray entries) [transform].
Proof.
  unfold parseConnectionDataRows, parseConnectionData, performBasicChecks.
  destruct (length entries =? 0)%nat; [reflexivity|].
  assert (H : forall index parseResult,
             reduceRows newConnection (getGroupLookups rootGroup) transform
                        entries index parseResult
             = reduce newConnection (getGroupLookups rootGroup) [transform]
                      entries index parseResult).
  { induction entries as [|data entries IH]; intros index parseResult; simpl;
      [reflexivity|].
    unfold reducerRows, reducer. simpl.
    destruct (transform data); [apply IH | reflexivity]. }
  now rewrite H.
Qed.

(** X18. A CSV file without data rows, that is, one the parser makes no row
    or only the header row of, is rejected as an empty file, unless the
    promise for the transform function of its header is rejected, and then
    with the reason of that rejection. *)
Theorem parseCSV_no_rows {Connection : Type}
    (newConnection : ImportConnection.t -> Connection) rootGroup
    parseCSVData getCSVTransformer csvData parsedData :
  parseCSVData csvData = Parsed parsedData ->
  length parsedData <= 1 ->
  parseCSV newConnection rootGroup parseCSVData getCSVTransformer csvData
    = match getCSVTransformer (hd [] parsedData) with
      | Rejected reason => Rejected reason
      | Resolved _ => Rejected (ThrownParseError emptyFile)
      end.
Proof.
  intros Hp Hlen. unfold parseCSV. rewrite Hp.
  destruct parsedData as [|header [|row rows]]; simpl in *; try lia;
    destruct (getCSVTransformer _); reflexivity.
Qed.

(** Witness of [parseCSV_no_rows]: a parser that yields the header row
    only. *)
Lemma parseCSV_no_rows_sample :
  parseCSV (fun c => c) sampleTree
    (fun _ => Parsed [["name"; "group"]])
    (fun _ => Resolved sampleCSVTransformer) "name,group"
    = Rejected (ThrownParseError emptyFile).
Proof.
  apply (parseCSV_no_rows (fun c => c) sampleTree
           (fun _ => Parsed [["name"; "group"]])
           (fun _ => Resolved sampleCSVTransformer) "name,group" [["name"; "group"]]);
    [reflexivity | simpl; lia].
Defined.

(** X19. For a CSV file with a header row and data rows on which the
    transform function of the header returns, [parseCSV] gives what
    [parseConnectionData] gives, without transform functions, for the array
    of the connection objects the transform function returns: the header
    row is no entry, and when there is a data row the promise resolves
    with one patch and one list of errors for each data row. *)
Theorem parseCSV_rows {Connection : Type}
    (newConnection : ImportConnection.t -> Connection) rootGroup
    parseCSVData getCSVTransformer csvData header rows csvTransformer cs :
  parseCSVData csvData = Parsed (header :: rows) ->
  getCSVTransformer header = Resolved csvTransformer ->
  Forall2 (fun row c => csvTransformer row = Return c) rows cs ->
  parseCSV newConnection rootGroup parseCSVData getCSVTransformer csvData
    = parseConnectionData newConnection rootGroup (IsArray cs) [] /\
  (rows <> [] ->
   exists r,
     parseCSV newConnection rootGroup parseCSVData getCSVTransformer csvData
       = Resolved r /\
     length (ParseResult.patches r) = length rows /\
     length (ParseResult.errors r) = length rows).
Proof.
  intros Hp Ht Hcs.
  assert (Heq : parseCSV newConnection rootGroup parseCSVData getCSVTransformer csvData
                = parseConnectionData newConnection rootGroup (IsArray cs) []).
  { unfold parseCSV. rewrite Hp. simpl. rewrite Ht.
    unfold parseConnectionDataRows, parseConnectionData, performBasicChecks.
    rewrite (Forall2_length _ _ _ Hcs).
    destruct (length cs =? 0)%nat; [reflexivity|].
    now rewrite (reduceRows_returns newConnection _ csvTransformer rows cs Hcs). }
  split; [exact Heq|].
  intros Hne. rewrite Heq.
  assert (Hcsne : cs <> [])
    by (intros ->; apply Forall2_length in Hcs; destruct rows; [contradiction | discriminate]).
  destruct (proj2 (parseConnectionData_no_transforms newConnection rootGroup (IsArray cs))
              cs eq_refl Hcsne) as (r & Hr & Hpl & Hel).
  exists r. rewrite (Forall2_length _ _ _ Hcs). auto.
Qed.

(** Witness of [parseCSV_rows]: [sampleCSVParser] and
    [sampleCSVTransformer] on a file with one data row. *)
Lemma parseCSV_rows_sample :
  exists r,
    parseCSV (fun c => c) sampleTree sampleCSVParser
      (fun _ => Resolved sampleCSVTransformer) "web" = Resolved r /\
    length (ParseResult.patches r) = 1 /\
    length (ParseResult.errors r) = 1.
Proof.
  apply (proj2 (parseCSV_rows (fun c => c) sampleTree sampleCSVParser
                  (fun _ => Resolved sampleCSVTransformer) "web"
                  ["name"; "group"] [["web"; "ROOT/East"]] sampleCSVTransformer
                  [ImportConnection.mk (Some "ROOT/East") None None None [("name", "web")]]
                  eq_refl eq_refl
                  ltac:(repeat constructor)));
    discriminate.
Defined.



(** ** The patches of a result *)

(** What the [try] block leaves when nothing was caught: a connection
    object whose parent identifier, when it is a non-empty string, is the
    identifier of a group of the tree or a name inherited from
    [Object.prototype]. *)
Lemma tryGroupTransformer_no_error rootGroup c :
  (tryGroupTransformer (getGroupLookups rootGroup) c).2 = [] ->
  forall p,
    truthy (ImportConnection.parentIdentifier
              (tryGroupTransformer (getGroupLookups rootGroup) c).1) = Some p ->
    (exists q n, (q, n) ∈ nodes rootGroup /\ identifier n = p) \/
    p ∈ objectPrototypeNames.
Proof.
  unfold tryGroupTransformer.
  destruct (groupTransformer_cases (getGroupLookups rootGroup) c)
    as [(Hg & [(Hp & Hr) | [(p & Hp & Hin & Hr) | (p & Hp & Hnotin & Hni & Hr)]])
       | (g & Hg & [(p & Hp & Hr) | [(Hp & id & Hid & Hne & Hr) | (Hp & Hl & Hr)]])];
    rewrite Hr; cbn [fst snd]; intros Hnil p' Hp'; try discriminate Hnil.
  - rewrite Hp in Hp'. discriminate.
  - rewrite Hp in Hp'. inversion Hp'; subst p'.
    destruct Hin as [Hin | Hin]; [left | now right].
    rewrite getGroupLookups_visits in Hin.
    apply visit_identifierSet_elem in Hin as [Hin | Hin]; [|exact Hin].
    now apply elem_of_empty in Hin.
  - unfold withParentIdentifier in Hp'.
    cbn [ImportConnection.parentIdentifier] in Hp'.
    apply truthy_Some in Hp' as [[= <-] _]. left.
    rewrite getGroupLookups_visits in Hid.
    apply visit_groupLookups_Some in Hid as [Hid | (n & Hin & Hn)]; [|eauto].
    simpl in Hid. rewrite lookup_empty in Hid. discriminate.
Qed.

(** X21. In a result of [parseConnectionData], every patch is an add at the
    path "/", and the patch of an entry without errors creates the
    connection of an object whose parent identifier, when it is a non-empty
    string, is the identifier of a group of the tree or a name inherited
    from [Object.prototype]. *)
Theorem parseConnectionData_patches {Connection : Type}
    (newConnection : ImportConnection.t -> Connection) rootGroup d fs r :
  parseConnectionData newConnection rootGroup d fs = Resolved r ->
  forall i patch, ParseResult.patches r !! i = Some patch ->
    op patch = "add" /\ path patch = "/" /\
    (ParseResult.errors r !! i = Some [] ->
     exists c, value patch = newConnection c /\
       forall p, truthy (ImportConnection.parentIdentifier c) = Some p ->
         (exists q n, (q, n) ∈ nodes rootGroup /\ identifier n = p) \/
         p ∈ objectPrototypeNames).
Proof.
  intros H i patch Hi.
  destruct (parseConnectionData_Resolved_inv _ _ _ _ _ H)
    as (entries & cs & _ & _ & Hcs & Hred).
  destruct (reduce_returns newConnection (getGroupLookups rootGroup) fs _ _ Hcs
              0 ParseResult.new) as (r' & Hr' & Hp & He & _).
  rewrite Hred in Hr'. inversion Hr'; subst r'. simpl in Hp, He.
  rewrite Hp, list_lookup_fmap in Hi. rewrite He, list_lookup_fmap.
  destruct (cs !! i) as [c|]; [|discriminate]. inversion Hi; subst patch.
  split; [reflexivity|]. split; [reflexivity|].
  intros [= Hnone].
  exists (tryGroupTransformer (getGroupLookups rootGroup) c).1.
  split; [reflexivity|]. now apply tryGroupTransformer_no_error.
Qed.

(** Witness of [parseConnectionData_patches]: the first of the entries
    [{group: "ROOT/East"}] and [{group: "Nonexistent", parentIdentifier:
    "g-42"}]. *)
Lemma parseConnectionData_patches_sample :
  exists c, withParentIdentifier (withGroup "ROOT/East") "g-east" = c /\
    forall p, truthy (ImportConnection.parentIdentifier c) = Some p ->
      (exists q n, (q, n) ∈ nodes sampleTree /\ identifier n = p) \/
      p ∈ objectPrototypeNames.
Proof.
  apply (proj2 (proj2
           (parseConnectionData_patches (fun c => c) sampleTree
              (IsArray [withGroup "ROOT/East"; withBoth "Nonexistent" "g-42"]) []
              _ ltac:(vm_compute; reflexivity) 0
              (addPatch (fun c => c)
                 (withParentIdentifier (withGroup "ROOT/East") "g-east"))
              ltac:(vm_compute; reflexivity)))).
  vm_compute. reflexivity.
Defined.
